(** * lma.js: Levenberg-Marquardt curve fitting

    A shallow embedding of [src/index.ts] (the functions [error],
    [gradientFunction], [matrixFunction], [step] and [lma]) and the
    properties of the fitting procedure that are stated about it.

    JavaScript numbers are IEEE 754 binary64 values; they are embedded as
    Rocq's primitive floats, whose operations round exactly as the
    JavaScript ones do.  Arrays of numbers are lists; reading an array
    outside its bounds yields [undefined], which every arithmetic operator
    converts to not-a-number.  The loop counters [count] and [i] and the
    bound [maxIterations] are numbers like any other: [maxIterations] can be
    a fraction, an infinity or not-a-number, [count++] and [i++] add 1 to a
    floating-point value, and [count < maxIterations] and
    [i < maxIterations] are floating-point comparisons. *)

From Stdlib Require Import Floats ZArith Bool List Lia.
From stdpp Require Import base option list gmap.
Import ListNotations.

Set Warnings "-inexact-float".

(** ** Numbers and arrays *)

Module Js.

(** [isNaN(a)] *)
Definition isNaN (a : float) : bool := PrimFloat.is_nan a.

(** [a < b], [a > b] and [a <= b]; each is false when an operand is
    not-a-number. *)
Definition lt (a b : float) : bool := (a <? b)%float.
Definition gt (a b : float) : bool := (b <? a)%float.
Definition le (a b : float) : bool := (a <=? b)%float.

(** [a[i]] used as a number: an index outside the array reads
    [undefined], which arithmetic turns into not-a-number. *)
Definition get (a : list float) (i : nat) : float := default nan (a !! i).

(** [new Array(n)] filled by a loop [for (k = 0; k < n; k++) a[k] = g(k)]. *)
Definition tabulate {A : Type} (n : nat) (g : nat -> A) : list A :=
  map g (seq 0 n).

End Js.

(** ** The dense linear-algebra capability

    [step] computes with matrices through the [mathjs] package, which is
    not part of the repository: the operations below are modelled from what
    the specification says of this capability (construction from nested
    arrays, scaled identity, product, sum, difference, transpose).
    Matrices are lists of rows.  Sum, difference and product are the usual
    entry-wise and row-by-column operations; they throw (here: [None]) when
    the sizes of their operands do not agree.  The inverse is a parameter of
    the development. *)

Module Matrix.

Abbreviation matrix := (list (list float)).

Definition nrows (M : matrix) : nat := length M.
Definition ncols (M : matrix) : nat := length (hd [] M).

(** Every row of [M] has [c] entries. *)
Definition rows_have (c : nat) (M : matrix) : bool :=
  forallb (fun row => Nat.eqb (length row) c) M.

Definition same_size (A B : matrix) : bool :=
  Nat.eqb (nrows A) (nrows B) && rows_have (ncols A) A && rows_have (ncols A) B.

(** The row of index [p], and in it the entry of index [k]. *)
Definition row (M : matrix) (p : nat) : list float := default [] (M !! p).
Definition entry (M : matrix) (p k : nat) : float := Js.get (row M p) k.

(** Modelled from the spec: [math.eye(n)], the identity matrix of order
    [n]. *)
Definition eye (n : nat) : matrix :=
  Js.tabulate n (fun i => Js.tabulate n (fun j => if Nat.eqb i j then 1%float else 0%float)).

(** Modelled from the spec: [math.multiply(M, c)] for a number [c], every
    entry of [M] multiplied by [c]. *)
Definition scale (M : matrix) (c : float) : matrix :=
  map (map (fun a => (a * c)%float)) M.

(** Modelled from the spec: [math.transpose(M)]. *)
Definition transpose (M : matrix) : matrix :=
  Js.tabulate (ncols M) (fun j => map (fun row => Js.get row j) M).

Definition zip_rows (op : float -> float -> float) (A B : matrix) : matrix :=
  zip_with (zip_with op) A B.

(** Modelled from the spec: [math.add(A, B)], which throws when the sizes
    differ. *)
Definition add (A B : matrix) : option matrix :=
  if same_size A B then Some (zip_rows PrimFloat.add A B) else None.

(** Modelled from the spec: [math.subtract(A, B)], which throws when the
    sizes differ. *)
Definition subtract (A B : matrix) : option matrix :=
  if same_size A B then Some (zip_rows PrimFloat.sub A B) else None.

(** The sum of the products of corresponding entries, accumulated from
    the first product on. *)
Definition dot (u v : list float) : float :=
  match zip_with PrimFloat.mul u v with
  | [] => 0%float
  | p :: ps => fold_left PrimFloat.add ps p
  end.

Definition column (M : matrix) (j : nat) : list float :=
  map (fun row => Js.get row j) M.

(** Modelled from the spec: [math.multiply(A, B)] for two matrices, the
    row-by-column product; it throws when the rows of [A] are not as long as
    [B] has rows, and when that inner dimension is empty. *)
Definition multiply (A B : matrix) : option matrix :=
  if rows_have (nrows B) A && rows_have (ncols B) B && negb (Nat.eqb (nrows B) 0) then
    Some (map (fun row => Js.tabulate (ncols B) (fun j => dot row (column B j))) A)
  else None.

(** Modelled from the spec: an instance of [math.inv], for the sample runs,
    on matrices with one or two rows: the inverse by the determinant, which
    throws on a matrix whose determinant is zero.  Larger matrices are
    outside this instance. *)
Definition inv_small (M : matrix) : option matrix :=
  match M with
  | [[a]] => if (a =? 0)%float then None else Some [[(1 / a)%float]]
  | [[a; b]; [c; d]] =>
      let det := (a * d - c * b)%float in
      if (det =? 0)%float then None
      else Some [[(d / det)%float; (- b / det)%float];
                 [(- c / det)%float; (a / det)%float]]
  | _ => None
  end.

End Matrix.

(** ** The fitting procedure *)

Record Data : Type := { x : list float; y : list float }.

(** The model: from a parameter vector to a function of the independent
    variable. *)
Definition Model : Type := list float -> float -> float.

(** [error(data, params, parameterizedFunction)] *)
Definition error (data : Data) (params : list float) (parameterizedFunction : Model) : float :=
  let func := parameterizedFunction params in
  fold_left
    (fun err i => (err + abs (Js.get (y data) i - func (Js.get (x data) i)))%float)
    (seq 0 (length (x data)))
    0%float.

(** [params.concat()] followed by [auxParams[param] += gradientDifference] *)
Definition perturb (params : list float) (param : nat) (gradientDifference : float) : list float :=
  let auxParams := params in
  <[param := (Js.get auxParams param + gradientDifference)%float]> auxParams.

(** [gradientFunction(data, evaluatedData, params, gradientDifference, paramFunction)] *)
Definition gradientFunction (data : Data) (evaluatedData params : list float)
    (gradientDifference : float) (paramFunction : Model) : Matrix.matrix :=
  let n := length params in
  let m := length (x data) in
  Js.tabulate n (fun param =>
    let auxParams := perturb params param gradientDifference in
    let funcParam := paramFunction auxParams in
    Js.tabulate m (fun point =>
      (Js.get evaluatedData point - funcParam (Js.get (x data) point))%float)).

(** [matrixFunction(data, evaluatedData)] *)
Definition matrixFunction (data : Data) (evaluatedData : list float) : Matrix.matrix :=
  let m := length (x data) in
  [ Js.tabulate m (fun point => (Js.get (y data) point - Js.get evaluatedData point)%float) ].

(** The options object of [lma], with the type the source gives it. *)
Record Options : Type := {
  damping : float;
  errorTolerance : float;
  gradientDifference : float;
  initialValues : list float;
  maxIterations : float;
  v : float
}.

(** The object [lma] returns. *)
Record Result : Type := {
  iterations : float;
  parameterError : float;
  parameterValues : list float
}.

(** How a computation ends: it returns a value, an operation of the
    linear-algebra capability throws, or it is still running when the
    allotted number of loop iterations (the fuel) is used up. *)
Inductive outcome (A : Type) : Type :=
| Returns (a : A)
| Throws
| Pending.
Arguments Returns {A} a.
Arguments Throws {A}.
Arguments Pending {A}.

#[global] Instance outcome_ret : MRet outcome := fun A a => Returns a.
#[global] Instance outcome_bind : MBind outcome := fun A B k m =>
  match m with
  | Returns a => k a
  | Throws => Throws
  | Pending => Pending
  end.

Definition lift {A : Type} (o : option A) : outcome A :=
  match o with
  | Some a => Returns a
  | None => Throws
  end.

(** How the body of a loop ends: normally, or by [break]. *)
Inductive Flow (S : Type) : Type :=
| Continue (s : S)
| Break (s : S).
Arguments Continue {S} s.
Arguments Break {S} s.

(** One call of [step] in phase 2 and the error computed after it. *)
Record Call : Type := {
  given : list float;
  given_damping : float;
  stepped : list float;
  stepped_error : float
}.

Section Fit.

(** [math.inv]: the inverse of a matrix, or [None] when it throws. *)
Variable inv : Matrix.matrix -> option Matrix.matrix.

(** [step(data, params, damping, gradientDifference, parameterizedFunction)];
    [None] when an operation of the linear-algebra capability throws. *)
Definition step (data : Data) (params : list float) (damping gradientDifference : float)
    (parameterizedFunction : Model) : option (list float) :=
  let identity :=
    Matrix.scale (Matrix.eye (length params))
                 (damping * gradientDifference * gradientDifference)%float in
  let l := length (x data) in
  let func := parameterizedFunction params in
  let evaluatedData := Js.tabulate l (fun i => func (Js.get (x data) i)) in
  let gradientFunc :=
    gradientFunction data evaluatedData params gradientDifference parameterizedFunction in
  let matrixFunc := Matrix.transpose (matrixFunction data evaluatedData) in
  gg ← Matrix.multiply gradientFunc (Matrix.transpose gradientFunc);
  a ← Matrix.add identity gg;
  inverseMatrix ← inv a;
  ig ← Matrix.multiply inverseMatrix gradientFunc;
  igm ← Matrix.multiply ig matrixFunc;
  p ← Matrix.subtract [params] (Matrix.transpose (Matrix.scale igm gradientDifference));
  Some (hd [] p).

(** *** Phase 1: the search for a damping factor *)

Section Loops.

Variable data : Data.
Variable parameterizedFunction : Model.
Variable options : Options.

(** The variables the [do ... while] loop updates. *)
Record Bracket : Type := { par : list float; damp : float; count : float }.

(** One pass through the body of the loop, up to and including
    [count++]; [Break] is the [break] statement. *)
Definition bracket_body (err : float) (s : Bracket) : outcome (Flow Bracket * float * float) :=
  stepD ← lift (step data (par s) (damp s) (gradientDifference options) parameterizedFunction);
  let errD := error data stepD parameterizedFunction in
  stepV ← lift (step data (par s) (damp s / v options)%float (gradientDifference options)
                     parameterizedFunction);
  let errV := error data stepV parameterizedFunction in
  if Js.gt err errD || Js.gt err errV then
    if Js.gt errD errV then
      Returns (Continue {| par := stepV; damp := (damp s / v options)%float;
                           count := (count s + 1)%float |}, errD, errV)
    else
      Returns (Break s, errD, errV)
  else
    Returns (Continue {| par := par s; damp := (damp s * v options)%float;
                         count := (count s + 1)%float |}, errD, errV).

(** The loop condition, evaluated after the body. *)
Definition bracket_continues (err errD errV : float) (s : Bracket) : bool :=
  Js.lt err errD || Js.lt err errV || Js.lt (count s) (maxIterations options).

Fixpoint bracket (fuel : nat) (err : float) (s : Bracket) : outcome Bracket :=
  match fuel with
  | O => Pending
  | S fuel' =>
      r ← bracket_body err s;
      match r with
      | (Break s', _, _) => Returns s'
      | (Continue s', errD, errV) =>
          if bracket_continues err errD errV s' then bracket fuel' err s'
          else Returns s'
      end
  end.

(** *** Phase 2: refinement *)

(** The variables the [for] loop updates, and a history of the calls
    of [step] it has made (most recent first); the history is not a
    variable of the program. *)
Record Refine : Type := {
  parameters : list float;
  err : float;
  converged : bool;
  i : float;
  lastParams : list float;
  history : list Call
}.

Fixpoint refine (fuel : nat) (damp : float) (s : Refine) : outcome Refine :=
  match fuel with
  | O => Pending
  | S fuel' =>
      if Js.lt (i s) (maxIterations options) && negb (converged s) then
        parameters' ← lift (step data (parameters s) damp (gradientDifference options)
                                 parameterizedFunction);
        let err' := error data parameters' parameterizedFunction in
        let call := {| given := parameters s; given_damping := damp;
                       stepped := parameters'; stepped_error := err' |} in
        if Js.isNaN err' then
          Returns {| parameters := parameters'; err := err'; converged := converged s;
                     i := i s; lastParams := lastParams s;
                     history := call :: history s |}
        else
          refine fuel' damp
            {| parameters := parameters'; err := err';
               converged := Js.le err' (errorTolerance options);
               i := (i s + 1)%float; lastParams := parameters';
               history := call :: history s |}
      else Returns s
  end.

(** *** The whole procedure *)

(** The state in which phase 1 starts. *)
Definition bracket_start : Bracket :=
  {| par := initialValues options; damp := damping options; count := 0 |}.

(** The state in which phase 2 starts, given the error at the initial
    values. *)
Definition refine_start (err : float) : Refine :=
  {| parameters := initialValues options;
     err := err;
     converged := Js.le err (errorTolerance options);
     i := 0;
     lastParams := initialValues options;
     history := [] |}.

(** The object built by the [return] statement. *)
Definition result_of (s : Refine) : Result :=
  {| iterations := i s;
     parameterError :=
       if Js.isNaN (err s) then error data (lastParams s) parameterizedFunction
       else err s;
     parameterValues :=
       if Js.isNaN (err s) then lastParams s else parameters s |}.

(** The body of [lma] after the destructuring of [options]: the result
    together with the final state of each phase. *)
Definition lma_run (fuel : nat) : outcome (Bracket * Refine * Result) :=
  let err := error data (initialValues options) parameterizedFunction in
  b ← bracket fuel err bracket_start;
  r ← refine fuel (damp b) (refine_start err);
  Returns (b, r, result_of r).

Definition lma_with (fuel : nat) : outcome Result :=
  t ← lma_run fuel; Returns (snd t).

End Loops.

End Fit.

(** ** The procedure on a heap of arrays

    In the program an array is an object on the heap, and a variable or an
    array slot holds a reference to it: [parameters], [par] and
    [lastParams] start as references to the caller's [initialValues], and
    [data.x] and [data.y] are the caller's arrays.  The definitions of this
    module repeat the procedure with the arrays in an explicit heap, so
    that which array an assignment [a[k] = w] changes can be stated.  The
    model function is taken to be pure: its evaluator depends on the heap
    only through the elements of the parameter array it was built from, and
    changes nothing.  The matrices of the linear-algebra capability are
    values, built from the elements that the arrays hold when they are
    made. *)

Module Heap.

Abbreviation loc := nat.

(** What a slot of an array holds: a number, a reference to an array, or
    nothing (an empty slot, read as [undefined]). *)
Inductive slot : Type :=
| Num (a : float)
| Ref (l : loc)
| Empty.

Abbreviation heap := (gmap nat (list slot)).

(** A computation on the heap. *)
Definition M (A : Type) : Type := heap -> outcome (A * heap).

#[global] Instance M_ret : MRet M := fun A a h => Returns (a, h).
#[global] Instance M_bind : MBind M := fun A B k m h =>
  match m h with
  | Returns (a, h') => k a h'
  | Throws => Throws
  | Pending => Pending
  end.

Definition throw {A : Type} : M A := fun _ => Throws.
Definition pending {A : Type} : M A := fun _ => Pending.

Definition lift {A : Type} (o : option A) : M A :=
  match o with
  | Some a => mret a
  | None => throw
  end.

(** A slot used as a number. *)
Definition to_number (w : slot) : float :=
  match w with
  | Num a => a
  | _ => nan
  end.

Definition numbers (a : list slot) : list float := map to_number a.

(** The elements of an array that holds numbers and nothing else. *)
Definition as_numbers (a : list slot) : option (list float) :=
  mapM (fun w => match w with
                 | Num b => Some b
                 | _ => None
                 end) a.

(** [a[k] = w] on the elements of an array: an index past the end extends
    the array with empty slots. *)
Definition assign (a : list slot) (k : nat) (w : slot) : list slot :=
  if decide (k < length a) then <[k := w]> a
  else a ++ replicate (k - length a) Empty ++ [w].

(** A new array with the given elements. *)
Definition alloc (a : list slot) : M loc := fun h =>
  let l := fresh (dom h) in Returns (l, <[l := a]> h).

(** The elements of the array at [l]. *)
Definition load (l : loc) : M (list slot) := fun h =>
  match h !! l with
  | Some a => Returns (a, h)
  | None => Throws
  end.

(** [l[k] = w] *)
Definition store (l : loc) (k : nat) (w : slot) : M unit := fun h =>
  match h !! l with
  | Some a => Returns (tt, <[l := assign a k w]> h)
  | None => Throws
  end.

(** [l.length] *)
Definition length_of (l : loc) : M nat := a ← load l; mret (length a).

(** [l[k]] used as a number *)
Definition read (l : loc) (k : nat) : M float :=
  a ← load l; mret (to_number (default Empty (a !! k))).

(** [l[k]] used as an array *)
Definition deref (l : loc) (k : nat) : M loc :=
  a ← load l;
  match a !! k with
  | Some (Ref r) => mret r
  | _ => throw
  end.

(** [new Array(n)] *)
Definition new_Array (n : nat) : M loc := alloc (replicate n Empty).

(** [l.concat()] *)
Definition concat (l : loc) : M loc := a ← load l; alloc a.

(** [l.map(g)]: a new array; [map] calls [g] on the slots of [l] that hold
    something and skips the empty ones, which stay empty in the new
    array. *)
Definition map_array (g : slot -> slot) (l : loc) : M loc :=
  a ← load l;
  alloc (map (fun w => match w with
                       | Empty => Empty
                       | _ => g w
                       end) a).

(** A call [func(t)] of the evaluator [func = parameterizedFunction(params)]. *)
Definition call (parameterizedFunction : Model) (params : loc) (t : float) : M float :=
  a ← load params; mret (parameterizedFunction (numbers a) t).

(** [for (k of ks) body(k)] *)
Fixpoint for_each (ks : list nat) (body : nat -> M unit) : M unit :=
  match ks with
  | [] => mret tt
  | k :: ks' => body k ;; for_each ks' body
  end.

(** The same with a variable [acc] that the body updates. *)
Fixpoint fold_each {A : Type} (ks : list nat) (acc : A) (body : A -> nat -> M A) : M A :=
  match ks with
  | [] => mret acc
  | k :: ks' => acc' ← body acc k; fold_each ks' acc' body
  end.

(** [math.matrix(l)] for an array [l] of rows *)
Definition matrix_of (l : loc) : M Matrix.matrix :=
  rows ← load l;
  mapM (fun w => match w with
                 | Ref r => row ← load r; mret (numbers row)
                 | _ => throw
                 end) rows.

(** [wp m Q h]: if [m], run from the heap [h], returns, then the value
    and the heap it returns satisfy [Q]. *)
Definition wp {A : Type} (m : M A) (Q : A -> heap -> Prop) (h : heap) : Prop :=
  match m h with
  | Returns (a, h') => Q a h'
  | Throws => True
  | Pending => True
  end.

(** [m] leaves every array of the heap [h0] as it is: an array of [h0]
    has the same elements after [m] as in [h0], provided it had them
    before [m]. *)
Definition preserves {A : Type} (h0 : heap) (m : M A) : Prop :=
  forall h, h0 ⊆ h -> wp m (fun _ h' => h0 ⊆ h') h.

(** [m] does not depend on the fuel: from every heap it returns or
    throws. *)
Definition ends {A : Type} (m : M A) : Prop := forall h, m h <> Pending.

(** The object [data]: its properties [x] and [y] refer to arrays. *)
Record Data : Type := { x : loc; y : loc }.

(** [error(data, params, parameterizedFunction)].  The loop stores nothing,
    so that [data.x.length], which the program reads at every pass, is read
    once. *)
Definition error (data : Data) (params : loc) (parameterizedFunction : Model) : M float :=
  let func := call parameterizedFunction params in
  m ← length_of (x data);
  fold_each (seq 0 m) 0%float (fun err i =>
    yi ← read (y data) i;
    xi ← read (x data) i;
    fx ← func xi;
    mret (err + abs (yi - fx))%float).

(** [gradientFunction(data, evaluatedData, params, gradientDifference, paramFunction)]:
    [ans] is a new array of [n] rows; for every parameter a new row
    [ans[param]] and a copy [auxParams] of [params] are made, the copy is
    changed at [param], and the row is filled through [ans[param][point]]. *)
Definition gradientFunction (data : Data) (evaluatedData params : loc)
    (gradientDifference : float) (paramFunction : Model) : M Matrix.matrix :=
  n ← length_of params;
  m ← length_of (x data);
  ans ← new_Array n;
  for_each (seq 0 n) (fun param =>
    row ← new_Array m;
    store ans param (Ref row);;
    auxParams ← concat params;
    old ← read auxParams param;
    store auxParams param (Num (old + gradientDifference)%float);;
    let funcParam := call paramFunction auxParams in
    for_each (seq 0 m) (fun point =>
      target ← deref ans param;
      e ← read evaluatedData point;
      xp ← read (x data) point;
      fx ← funcParam xp;
      store target point (Num (e - fx)%float)));;
  matrix_of ans.

(** [matrixFunction(data, evaluatedData)] *)
Definition matrixFunction (data : Data) (evaluatedData : loc) : M Matrix.matrix :=
  m ← length_of (x data);
  ans ← new_Array m;
  for_each (seq 0 m) (fun point =>
    yp ← read (y data) point;
    e ← read evaluatedData point;
    store ans point (Num (yp - e)%float));;
  row ← load ans;
  mret [numbers row].

(** The object [options]; [initialValues] refers to the caller's array. *)
Record Options : Type := {
  damping : float;
  errorTolerance : float;
  gradientDifference : float;
  initialValues : loc;
  maxIterations : float;
  v : float
}.

(** The object [lma] returns; [parameterValues] refers to an array. *)
Record Result : Type := {
  iterations : float;
  parameterError : float;
  parameterValues : loc
}.

(** The variables of the two loops of [lma]; [par], [parameters] and
    [lastParams] hold references. *)
Record Bracket : Type := { par : loc; damp : float; count : float }.

Record Refine : Type := {
  parameters : loc;
  err : float;
  converged : bool;
  i : float;
  lastParams : loc
}.

Section Fit.

Variable inv : Matrix.matrix -> option Matrix.matrix.

(** [step(data, params, damping, gradientDifference, parameterizedFunction)]:
    [evaluatedData] is a new array, the matrices are values, and the array
    returned, [p.toArray()[0]], is a new one.  Modelled from the spec: the
    capability computes with matrices of numbers; [math.subtract] throws on
    the row [params] when one of its slots is empty ([undefined], for which
    the difference is not defined).  A row with a nested array is no row of
    numbers either and is treated in the same way: what is stated of [step]
    on the heap concerns arrays of numbers and of empty slots. *)
Definition step (data : Data) (params : loc) (damping gradientDifference : float)
    (parameterizedFunction : Model) : M loc :=
  n ← length_of params;
  let identity :=
    Matrix.scale (Matrix.eye n) (damping * gradientDifference * gradientDifference)%float in
  l ← length_of (x data);
  evaluatedData ← new_Array l;
  let func := call parameterizedFunction params in
  for_each (seq 0 l) (fun i =>
    xi ← read (x data) i;
    fx ← func xi;
    store evaluatedData i (Num fx));;
  gradientFunc ← gradientFunction data evaluatedData params gradientDifference
                                  parameterizedFunction;
  residuals ← matrixFunction data evaluatedData;
  let matrixFunc := Matrix.transpose residuals in
  gg ← lift (Matrix.multiply gradientFunc (Matrix.transpose gradientFunc));
  a ← lift (Matrix.add identity gg);
  inverseMatrix ← lift (inv a);
  ig ← lift (Matrix.multiply inverseMatrix gradientFunc);
  igm ← lift (Matrix.multiply ig matrixFunc);
  current ← load params;
  row ← lift (as_numbers current);
  p ← lift (Matrix.subtract [row]
              (Matrix.transpose (Matrix.scale igm gradientDifference)));
  alloc (map Num (hd [] p)).

Section Loops.

Variable data : Data.
Variable parameterizedFunction : Model.
Variable options : Options.

(** The body and the condition of the [do ... while] loop, and the loop. *)
Definition bracket_body (err : float) (s : Bracket) : M (Flow Bracket * float * float) :=
  stepD ← step data (par s) (damp s) (gradientDifference options) parameterizedFunction;
  errD ← error data stepD parameterizedFunction;
  stepV ← step data (par s) (damp s / v options)%float (gradientDifference options)
               parameterizedFunction;
  errV ← error data stepV parameterizedFunction;
  if Js.gt err errD || Js.gt err errV then
    if Js.gt errD errV then
      mret (Continue {| par := stepV; damp := (damp s / v options)%float;
                        count := (count s + 1)%float |}, errD, errV)
    else
      mret (Break s, errD, errV)
  else
    mret (Continue {| par := par s; damp := (damp s * v options)%float;
                      count := (count s + 1)%float |}, errD, errV).

Definition bracket_continues (err errD errV : float) (s : Bracket) : bool :=
  Js.lt err errD || Js.lt err errV || Js.lt (count s) (maxIterations options).

Fixpoint bracket (fuel : nat) (err : float) (s : Bracket) : M Bracket :=
  match fuel with
  | O => pending
  | S fuel' =>
      r ← bracket_body err s;
      match r with
      | (Break s', _, _) => mret s'
      | (Continue s', errD, errV) =>
          if bracket_continues err errD errV s' then bracket fuel' err s'
          else mret s'
      end
  end.

(** The [for] loop. *)
Fixpoint refine (fuel : nat) (damp : float) (s : Refine) : M Refine :=
  match fuel with
  | O => pending
  | S fuel' =>
      if Js.lt (i s) (maxIterations options) && negb (converged s) then
        parameters' ← step data (parameters s) damp (gradientDifference options)
                           parameterizedFunction;
        err' ← error data parameters' parameterizedFunction;
        if Js.isNaN err' then
          mret {| parameters := parameters'; err := err'; converged := converged s;
                  i := i s; lastParams := lastParams s |}
        else
          refine fuel' damp
            {| parameters := parameters'; err := err';
               converged := Js.le err' (errorTolerance options);
               i := (i s + 1)%float; lastParams := parameters' |}
      else mret s
  end.

(** The body of [lma] after the destructuring of [options]. *)
Definition lma (fuel : nat) : M Result :=
  let parameters0 := initialValues options in
  err0 ← error data parameters0 parameterizedFunction;
  b ← bracket fuel err0
        {| par := parameters0; damp := damping options; count := 0 |};
  r ← refine fuel (damp b)
        {| parameters := parameters0; err := err0;
           converged := Js.le err0 (errorTolerance options);
           i := 0; lastParams := initialValues options |};
  if Js.isNaN (err r) then
    e ← error data (lastParams r) parameterizedFunction;
    mret {| iterations := i r; parameterError := e; parameterValues := lastParams r |}
  else
    mret {| iterations := i r; parameterError := err r;
            parameterValues := parameters r |}.

End Loops.

(** The default value of the parameter [options]:
    [{ damping : 0, errorTolerance : 10e-3, gradientDifference : 10e-2,
       initialValues : new Array(parameterizedFunction.length).map(() => 1),
       maxIterations : 100, v : 1.5 }].
    [arity] is [parameterizedFunction.length], the number of parameters the
    model function declares. *)
Definition default_options (arity : nat) : M Options :=
  holes ← new_Array arity;
  ones ← map_array (fun _ => Num 1) holes;
  mret {| damping := 0;
          errorTolerance := 10e-3;
          gradientDifference := 10e-2;
          initialValues := ones;
          maxIterations := 100;
          v := 1.5 |}.

(** A call [lma(data, parameterizedFunction, options)] or
    [lma(data, parameterizedFunction)]: the default value is computed when
    the argument [options] is omitted, and the body runs on the object so
    obtained. *)
Definition lma_call (arity : nat) (data : Data) (parameterizedFunction : Model)
    (options : option Options) (fuel : nat) : M Result :=
  o ← match options with
      | Some o => mret o
      | None => default_options arity
      end;
  lma data parameterizedFunction o fuel.

End Fit.

End Heap.

(** ** Reference definitions

    The quantities the description of the procedure is phrased in. *)

(** The sum of the absolute residuals [|y_i - evaluator(x_i)|] of the
    first [k] samples. *)
Fixpoint residual_sum (data : Data) (evaluator : float -> float) (k : nat) : float :=
  match k with
  | O => 0%float
  | S k' =>
      (residual_sum data evaluator k'
       + abs (Js.get (y data) k' - evaluator (Js.get (x data) k')))%float
  end.

(** [q] is [params] with the parameter at index [p] incremented by
    [gradientDifference] and every other parameter unchanged. *)
Definition perturbed_at (params : list float) (p : nat) (gradientDifference : float)
    (q : list float) : Prop :=
  length q = length params /\
  forall j, j < length params ->
    Js.get q j = if Nat.eqb j p then (Js.get params p + gradientDifference)%float
                 else Js.get params j.

(** The matrix that [step] passes to [math.inv]:
    [I * (damping * gradientDifference^2) + J * transpose(J)]. *)
Definition normal_matrix (data : Data) (params : list float)
    (damping gradientDifference : float) (parameterizedFunction : Model) :
    option Matrix.matrix :=
  let evaluatedData :=
    Js.tabulate (length (x data)) (fun i => parameterizedFunction params (Js.get (x data) i)) in
  let J := gradientFunction data evaluatedData params gradientDifference
                            parameterizedFunction in
  gg ← Matrix.multiply J (Matrix.transpose J);
  Matrix.add (Matrix.scale (Matrix.eye (length params))
                           (damping * gradientDifference * gradientDifference)%float) gg.

(** The value of a loop counter ([count], [i]) that started at 0 and was
    incremented [n] times by [++]. *)
Definition counter (n : nat) : float := Nat.iter n (fun c => (c + 1)%float) 0%float.

(** The first call of [step] that phase 2 made, if it made any. *)
Definition first_call (r : Refine) : option Call := last (history r).

(** A refinement step is completed when the error computed after it is a
    number: the loop then goes on to update [converged], [lastParams] and
    [i]. *)
Definition completed (c : Call) : bool := negb (Js.isNaN (stepped_error c)).

(** *** The values that a heap holds *)








Section Formula.

Variable inv : Matrix.matrix -> option Matrix.matrix.

(** The update of the parameters in closed form:
    [params - gradientDifference * inverse(I * (damping * gradientDifference^2) + J * transpose(J)) * J * transpose(r)],
    with [J] the matrix of [gradientFunction] at [params], [r] the row of
    the residuals [y - evaluatedData] and [I] the identity of order [n].
    The scalar [damping * gradientDifference^2] is the product
    [damping * gradientDifference * gradientDifference]. *)
Definition step_formula (data : Data) (params : list float)
    (damping gradientDifference : float) (parameterizedFunction : Model) :
    option (list float) :=
  let n := length params in
  let m := length (x data) in
  let evaluatedData := map (parameterizedFunction params) (x data) in
  let J := gradientFunction data evaluatedData params gradientDifference
                            parameterizedFunction in
  let r := Js.tabulate m (fun k => (Js.get (y data) k - Js.get evaluatedData k)%float) in
  let I := Matrix.eye n in
  JJt ← Matrix.multiply J (Matrix.transpose J);
  A ← Matrix.add (Matrix.scale I (damping * gradientDifference * gradientDifference)%float) JJt;
  Ainv ← inv A;
  AinvJ ← Matrix.multiply Ainv J;
  d ← Matrix.multiply AinvJ (Matrix.transpose [r]);
  if Nat.eqb (length d) n then
    Some (Js.tabulate n (fun p =>
            (Js.get params p - gradientDifference * Matrix.entry d p 0)%float))
  else None.

End Formula.

(** ** Sample inputs *)

Module Sample.

(** [params => t => params[0] * t + params[1]] *)
Definition line : Model := fun params t => (Js.get params 0 * t + Js.get params 1)%float.

(** [params => t => params[0] * t] *)
Definition ray : Model := fun params t => (Js.get params 0 * t)%float.

(** [params => t => params[0] * params[0] * t] *)
Definition square : Model := fun params t => (Js.get params 0 * Js.get params 0 * t)%float.

(** [params => t => t / params[0]] *)
Definition ratio : Model := fun params t => (t / Js.get params 0)%float.

(** [params => t => Math.sqrt(params[0]) * t] *)
Definition root : Model := fun params t => (sqrt (Js.get params 0) * t)%float.

Definition two_points : Data := {| x := [0%float; 1%float]; y := [1%float; 3%float] |}.
Definition point_1_2 : Data := {| x := [1%float]; y := [2%float] |}.
Definition point_1_1 : Data := {| x := [1%float]; y := [1%float] |}.
Definition point_0_1 : Data := {| x := [0%float]; y := [1%float] |}.
Definition point_1_0 : Data := {| x := [1%float]; y := [0%float] |}.

(** damping 1, one iteration allowed, start at 0 *)
Definition damped : Options :=
  {| damping := 1; errorTolerance := 0.01; gradientDifference := 0.1;
     initialValues := [0%float]; maxIterations := 1; v := 1.5 |}.

(** damping 0.01, one iteration allowed, start at 0.1 *)
Definition overshoot : Options :=
  {| damping := 0.01; errorTolerance := 0.01; gradientDifference := 0.1;
     initialValues := [0.1%float]; maxIterations := 1; v := 1.5 |}.

(** no damping, three iterations allowed, start at 0 *)
Definition from_zero : Options :=
  {| damping := 0; errorTolerance := 0.01; gradientDifference := 0.1;
     initialValues := [0%float]; maxIterations := 3; v := 1.5 |}.

(** no damping, a hundred iterations allowed, start at (1, 1) *)
Definition plain : Options :=
  {| damping := 0; errorTolerance := 0.01; gradientDifference := 0.1;
     initialValues := [1%float; 1%float]; maxIterations := 100; v := 1.5 |}.

(** damping 1, five iterations allowed, start at 1 *)
Definition from_one : Options :=
  {| damping := 1; errorTolerance := 0.01; gradientDifference := 0.1;
     initialValues := [1%float]; maxIterations := 5; v := 1.5 |}.

(** damping 1, two and a half iterations allowed, start at 0 *)
Definition fractional : Options :=
  {| damping := 1; errorTolerance := 0.01; gradientDifference := 0.1;
     initialValues := [0%float]; maxIterations := 2.5; v := 1.5 |}.

(** A heap with the arrays of [two_points] at 0 and 1 and the initial
    values (1, 1) at 2. *)
Definition arrays : Heap.heap :=
  <[2 := [Heap.Num 1; Heap.Num 1]]>
    (<[1 := [Heap.Num 1; Heap.Num 3]]>
       (<[0 := [Heap.Num 0; Heap.Num 1]]> ∅)).

Definition two_points_at : Heap.Data := {| Heap.x := 0; Heap.y := 1 |}.

Definition plain_at : Heap.Options :=
  {| Heap.damping := 0; Heap.errorTolerance := 0.01; Heap.gradientDifference := 0.1;
     Heap.initialValues := 2; Heap.maxIterations := 100; Heap.v := 1.5 |}.

End Sample.

(** Runs [lma_run] on the sample input of the goal: [b], [r] and [res]
    are the final states of the two phases and the result, [E] states that
    the run returns them. *)
Ltac run_sample E :=
  match goal with
  | |- context [lma_run ?inv ?d ?f ?o ?n] =>
      let E' := fresh "E" in
      destruct (lma_run inv d f o n) as [[[b r] res] | |] eqn:E;
      [ pose proof E as E'; vm_compute in E';
        injection E' as Eb Er Eres
      | exfalso; vm_compute in E; discriminate .. ]
  end.

(** ** The history of phase 2 *)

(** The value of [parameters] after the calls of the history [h] (most
    recent first), starting from [start]. *)
Definition current (start : list float) (h : list Call) : list float :=
  match h with
  | [] => start
  | c :: _ => stepped c
  end.

(** Each call of [h] was given what the call before it returned, and the
    first was given [start]. *)
Fixpoint chained (start : list float) (h : list Call) : Prop :=
  match h with
  | [] => True
  | c :: h' => given c = current start h' /\ chained start h'
  end.

(** What the most recent completed call of [h] returned, or [start] when
    no call of [h] is completed. *)
Fixpoint last_completed (start : list float) (h : list Call) : list float :=
  match h with
  | [] => start
  | c :: h' => if completed c then stepped c else last_completed start h'
  end.

(** ** More sample inputs *)

Module Sample2.

(** Two values of [x] and one of [y]. *)
Definition short_y : Data := {| x := [1%float; 2%float]; y := [1%float] |}.

(** [params => t => t], a model that does not depend on its parameters *)
Definition fixed : Model := fun params t => t.

(** no damping, a hundred iterations allowed, start at (2, 1) *)
Definition at_solution : Options :=
  {| damping := 0; errorTolerance := 0.01; gradientDifference := 0.1;
     initialValues := [2%float; 1%float]; maxIterations := 100; v := 1.5 |}.

(** no damping, one iteration allowed, start at 0.1 *)
Definition undamped : Options :=
  {| damping := 0; errorTolerance := 0.01; gradientDifference := 0.1;
     initialValues := [0.1%float]; maxIterations := 1; v := 1.5 |}.




(** no iteration allowed, [initialValues] the array at 2 *)
Definition no_iteration_at : Heap.Options :=
  {| Heap.damping := 0; Heap.errorTolerance := 0.01; Heap.gradientDifference := 0.1;
     Heap.initialValues := 2; Heap.maxIterations := 0; Heap.v := 1.5 |}.

End Sample2.

(** * Properties *)

(** ** Not-a-number in IEEE 754 arithmetic *)

Section NotANumber.

Local Open Scope float_scope.

Lemma SFcompare_refl (a : spec_float) :
  a <> S754_nan -> SFcompare a a = Some Eq.
Proof.
  destruct a as [s | s | | s m e]; intros Ha; try congruence.
  - reflexivity.
  - now destruct s.
  - unfold SFcompare. rewrite Z.compare_refl, Pos.compare_cont_refl. now destruct s.
Qed.

Lemma isNaN_spec (a : float) : Js.isNaN a = true <-> Prim2SF a = S754_nan.
Proof.
  unfold Js.isNaN, is_nan. rewrite FloatAxioms.eqb_spec. unfold SFeqb. split.
  - intros H. destruct (Prim2SF a) eqn:E; try reflexivity;
      rewrite SFcompare_refl in H by discriminate; discriminate.
  - intros ->. reflexivity.
Qed.

Lemma isNaN_nan : Js.isNaN nan = true.
Proof. reflexivity. Qed.

Lemma isNaN_add_l (a b : float) : Js.isNaN a = true -> Js.isNaN (a + b) = true.
Proof.
  rewrite !isNaN_spec, add_spec. intros ->. reflexivity.
Qed.

Lemma isNaN_add_r (a b : float) : Js.isNaN b = true -> Js.isNaN (a + b) = true.
Proof.
  rewrite !isNaN_spec, add_spec. intros ->. now destruct (Prim2SF a).
Qed.

Lemma isNaN_sub_l (a b : float) : Js.isNaN a = true -> Js.isNaN (a - b) = true.
Proof.
  rewrite !isNaN_spec, sub_spec. intros ->. reflexivity.
Qed.

Lemma isNaN_sub_r (a b : float) : Js.isNaN b = true -> Js.isNaN (a - b) = true.
Proof.
  rewrite !isNaN_spec, sub_spec. intros ->. now destruct (Prim2SF a).
Qed.

Lemma isNaN_abs (a : float) : Js.isNaN (abs a) = Js.isNaN a.
Proof.
  apply eq_true_iff_eq. rewrite !isNaN_spec, abs_spec.
  destruct (Prim2SF a); simpl; split; congruence.
Qed.

Lemma lt_nan_l (a b : float) : Js.isNaN a = true -> Js.lt a b = false.
Proof.
  rewrite isNaN_spec. unfold Js.lt. rewrite ltb_spec. intros ->. reflexivity.
Qed.

Lemma lt_nan_r (a b : float) : Js.isNaN b = true -> Js.lt a b = false.
Proof.
  rewrite isNaN_spec. unfold Js.lt. rewrite ltb_spec. intros ->.
  unfold SFltb. now destruct (Prim2SF a).
Qed.

Lemma gt_nan_l (a b : float) : Js.isNaN a = true -> Js.gt a b = false.
Proof. apply lt_nan_r. Qed.

Lemma gt_nan_r (a b : float) : Js.isNaN b = true -> Js.gt a b = false.
Proof. apply lt_nan_l. Qed.

Lemma le_nan_l (a b : float) : Js.isNaN a = true -> Js.le a b = false.
Proof.
  rewrite isNaN_spec. unfold Js.le. rewrite leb_spec. intros ->. reflexivity.
Qed.

(** Multiplication of two numbers does not depend on their order. *)
Lemma mul_comm (a b : float) : a * b = b * a.
Proof.
  apply Prim2SF_inj. rewrite !mul_spec. unfold SF64mul, SFmul.
  destruct (Prim2SF a) as [s | s | | s m e], (Prim2SF b) as [s' | s' | | s' m' e'];
    try reflexivity; try (now rewrite xorb_comm).
  now rewrite xorb_comm, Pos.mul_comm, Z.add_comm.
Qed.

End NotANumber.

(** ** Arrays filled by a loop *)

Lemma length_tabulate {A : Type} (n : nat) (g : nat -> A) :
  length (Js.tabulate n g) = n.
Proof. unfold Js.tabulate. now rewrite length_map, length_seq. Qed.

Lemma lookup_tabulate {A : Type} (n : nat) (g : nat -> A) (k : nat) :
  k < n -> Js.tabulate n g !! k = Some (g k).
Proof.
  intros Hk. unfold Js.tabulate. rewrite list_lookup_fmap.
  rewrite lookup_seq_lt by exact Hk. reflexivity.
Qed.

Lemma get_tabulate (n : nat) (g : nat -> float) (k : nat) :
  k < n -> Js.get (Js.tabulate n g) k = g k.
Proof. intros Hk. unfold Js.get. now rewrite lookup_tabulate. Qed.

Lemma tabulate_ext {A : Type} (n : nat) (g g' : nat -> A) :
  (forall k, k < n -> g k = g' k) -> Js.tabulate n g = Js.tabulate n g'.
Proof.
  intros H. unfold Js.tabulate. apply map_ext_in. intros k Hk.
  apply in_seq in Hk. apply H. lia.
Qed.

Lemma tabulate_S {A : Type} (n : nat) (g : nat -> A) :
  Js.tabulate (S n) g = Js.tabulate n g ++ [g n].
Proof. unfold Js.tabulate. now rewrite seq_S, map_app. Qed.

Lemma get_lookup (a : list float) (k : nat) :
  k < length a -> a !! k = Some (Js.get a k).
Proof.
  intros Hk. unfold Js.get.
  destruct (a !! k) as [w |] eqn:E; [reflexivity |].
  apply lookup_ge_None_1 in E. lia.
Qed.

Lemma tabulate_get (a : list float) : Js.tabulate (length a) (Js.get a) = a.
Proof.
  apply list_eq. intros k. destruct (decide (k < length a)) as [Hk | Hk].
  - rewrite lookup_tabulate by exact Hk. now rewrite get_lookup.
  - rewrite !lookup_ge_None_2; [reflexivity | lia | rewrite length_tabulate; lia].
Qed.

Lemma map_tabulate (g : float -> float) (a : list float) :
  map g a = Js.tabulate (length a) (fun k => g (Js.get a k)).
Proof.
  rewrite <- (tabulate_get a) at 1. unfold Js.tabulate. rewrite map_map. reflexivity.
Qed.

(** ** ErrorEvaluator *)

Lemma error_unfold (data : Data) (params : list float) (f : Model) (k : nat) :
  fold_left
    (fun err i => (err + abs (Js.get (y data) i - f params (Js.get (x data) i)))%float)
    (seq 0 k) 0%float
  = residual_sum data (f params) k.
Proof.
  induction k as [| k IH]; [reflexivity |].
  rewrite seq_S, fold_left_app. simpl. now rewrite IH.
Qed.

Lemma residual_sum_nan (data : Data) (evaluator : float -> float) (k i : nat) :
  i < k ->
  Js.isNaN (evaluator (Js.get (x data) i)) = true ->
  Js.isNaN (residual_sum data evaluator k) = true.
Proof.
  intros Hi Hnan. induction k as [| k IH]; [lia |].
  simpl. destruct (decide (i = k)) as [-> | Hne].
  - apply isNaN_add_r. rewrite isNaN_abs. now apply isNaN_sub_r.
  - apply isNaN_add_l, IH. lia.
Qed.

(** C6. [error] returns the sum, over all the samples [i], of the absolute
    residual [|y_i - evaluator(x_i)|], where [evaluator] is the model built
    from the parameter vector; and when the evaluator yields not-a-number at
    some sample, so does [error]. *)
Theorem error_is_residual_sum (data : Data) (params : list float) (f : Model) :
  error data params f = residual_sum data (f params) (length (x data)) /\
  forall i, i < length (x data) ->
    Js.isNaN (f params (Js.get (x data) i)) = true ->
    Js.isNaN (error data params f) = true.
Proof.
  assert (E : error data params f = residual_sum data (f params) (length (x data)))
    by apply error_unfold.
  split; [exact E |].
  intros i Hi Hnan. rewrite E. now apply residual_sum_nan with i.
Qed.

Lemma error_is_residual_sum_witness :
  0 < length (x Sample.point_0_1) /\
  Js.isNaN (Sample.ratio [0%float] (Js.get (x Sample.point_0_1) 0)) = true /\
  Js.isNaN (error Sample.point_0_1 [0%float] Sample.ratio) = true.
Proof.
  assert (H0 : 0 < length (x Sample.point_0_1)) by (simpl; lia).
  assert (H1 : Js.isNaN (Sample.ratio [0%float] (Js.get (x Sample.point_0_1) 0)) = true)
    by reflexivity.
  split; [exact H0 |]. split; [exact H1 |].
  exact (proj2 (error_is_residual_sum Sample.point_0_1 [0%float] Sample.ratio) 0 H0 H1).
Defined.

(** ** GradientApproximator *)

Lemma length_perturb (params : list float) (p : nat) (gd : float) :
  length (perturb params p gd) = length params.
Proof. unfold perturb. apply length_insert. Qed.

Lemma perturb_perturbed_at (params : list float) (p : nat) (gd : float) :
  perturbed_at params p gd (perturb params p gd).
Proof.
  split; [apply length_perturb |].
  intros j Hj. unfold perturb, Js.get at 1.
  destruct (Nat.eqb_spec j p) as [-> | Hne].
  - now rewrite list_lookup_insert_eq.
  - now rewrite list_lookup_insert_ne by congruence.
Qed.

Lemma perturbed_at_unique (params : list float) (p : nat) (gd : float) (q q' : list float) :
  perturbed_at params p gd q -> perturbed_at params p gd q' -> q = q'.
Proof.
  intros [Hl Hq] [Hl' Hq']. apply list_eq. intros j.
  destruct (decide (j < length params)) as [Hj | Hj].
  - rewrite !get_lookup by lia. now rewrite Hq, Hq'.
  - rewrite !lookup_ge_None_2; [reflexivity | lia | lia].
Qed.

Lemma row_tabulate (n : nat) (g : nat -> list float) (p : nat) :
  p < n -> Matrix.row (Js.tabulate n g) p = g p.
Proof. intros Hp. unfold Matrix.row. now rewrite lookup_tabulate. Qed.

(** C5. [gradientFunction] returns a matrix with one row per parameter
    and one column per sample, whose entry at row [p] and column [point] is
    [evaluatedData[point]] minus the value at [x[point]] of the evaluator
    built from the parameter vector in which parameter [p], and only it, is
    incremented by [gradientDifference]. *)
Theorem gradientFunction_entries (data : Data) (evaluatedData params : list float)
    (gd : float) (f : Model) :
  let J := gradientFunction data evaluatedData params gd f in
  Matrix.nrows J = length params /\
  (forall p, p < length params -> length (Matrix.row J p) = length (x data)) /\
  forall p point q,
    p < length params -> point < length (x data) ->
    perturbed_at params p gd q ->
    Matrix.entry J p point
    = (Js.get evaluatedData point - f q (Js.get (x data) point))%float.
Proof.
  cbv zeta. unfold gradientFunction, Matrix.nrows. split; [apply length_tabulate |]. split.
  - intros p Hp. rewrite row_tabulate by exact Hp. apply length_tabulate.
  - intros p point q Hp Hpoint Hq. unfold Matrix.entry.
    rewrite row_tabulate by exact Hp. rewrite get_tabulate by exact Hpoint.
    now rewrite (perturbed_at_unique _ _ _ _ _ Hq (perturb_perturbed_at params p gd)).
Qed.

Lemma gradientFunction_entries_witness :
  perturbed_at [1%float; 1%float] 0 0.1%float [(1 + 0.1)%float; 1%float] /\
  Matrix.entry
    (gradientFunction Sample.two_points [1%float; 2%float] [1%float; 1%float] 0.1%float
                      Sample.line) 0 1
  = (2 - Sample.line [(1 + 0.1)%float; 1%float] 1)%float.
Proof.
  assert (Hq : perturbed_at [1%float; 1%float] 0 0.1%float [(1 + 0.1)%float; 1%float]).
  { split; [reflexivity |]. intros [| [| j]] Hj; simpl in *; try reflexivity; lia. }
  split; [exact Hq |].
  apply (proj2 (proj2 (gradientFunction_entries Sample.two_points [1%float; 2%float]
                         [1%float; 1%float] 0.1%float Sample.line)) 0 1);
    [simpl; lia | simpl; lia | exact Hq].
Defined.

(** ** StepComputer *)

Section StepComputer.

Variable inv : Matrix.matrix -> option Matrix.matrix.

Lemma rows_have_spec (c : nat) (M : Matrix.matrix) :
  Matrix.rows_have c M = true <-> forall row, In row M -> length row = c.
Proof.
  unfold Matrix.rows_have. rewrite forallb_forall. split; intros H row Hin.
  - now apply Nat.eqb_eq, H.
  - now apply Nat.eqb_eq, H.
Qed.

(** The difference of a one-row matrix and a matrix, when it does not
    throw, is the entry-wise difference of two rows of the same length. *)
Lemma subtract_row (a : list float) (T P : Matrix.matrix) :
  Matrix.subtract [a] T = Some P ->
  exists t, T = [t] /\ length t = length a /\ P = [zip_with PrimFloat.sub a t].
Proof.
  unfold Matrix.subtract, Matrix.same_size. 
  destruct T as [| t [| t' T']]; simpl; try discriminate.
  unfold Matrix.ncols. simpl. rewrite Nat.eqb_refl, !andb_true_r. simpl.
  destruct (Nat.eqb_spec (length t) (length a)) as [Ht | Ht]; [| discriminate].
  intros [= <-]. now exists t.
Qed.

Lemma multiply_rows (A B D : Matrix.matrix) :
  Matrix.multiply A B = Some D ->
  length D = length A /\ Matrix.nrows B <> 0 /\
  forall row, In row D -> length row = Matrix.ncols B.
Proof.
  unfold Matrix.multiply. destruct (_ && _) eqn:E; [| discriminate].
  intros [= <-]. apply andb_prop in E. destruct E as [_ E].
  apply negb_true_iff, Nat.eqb_neq in E.
  split; [apply length_map |]. split; [exact E |].
  intros row Hin. apply in_map_iff in Hin. destruct Hin as (r & <- & _).
  apply length_tabulate.
Qed.

Lemma ncols_transpose_row (r : list float) :
  r <> [] -> Matrix.ncols (Matrix.transpose [r]) = 1.
Proof.
  intros Hr. unfold Matrix.transpose, Matrix.ncols at 2. simpl.
  destruct r as [| a r]; [congruence |]. reflexivity.
Qed.

Lemma nrows_transpose (M : Matrix.matrix) :
  Matrix.nrows (Matrix.transpose M) = Matrix.ncols M.
Proof. apply length_tabulate. Qed.

Lemma get_scaled_head (row : list float) (c : float) :
  length row = 1 -> Js.get (map (fun a => (a * c)%float) row) 0 = (Js.get row 0 * c)%float.
Proof. destruct row as [| a [| b row]]; simpl; intros; try lia. reflexivity. Qed.

Lemma update_closed_form (params : list float) (d : Matrix.matrix) (gd : float) :
  length params <> 0 ->
  (forall row, In row d -> length row = 1) ->
  (p ← Matrix.subtract [params] (Matrix.transpose (Matrix.scale d gd)); Some (hd [] p))
  = if Nat.eqb (length d) (length params) then
      Some (Js.tabulate (length params) (fun p =>
              (Js.get params p - gd * Matrix.entry d p 0)%float))
    else None.
Proof.
  intros Hn Hd. destruct d as [| row0 d].
  - destruct (Nat.eqb_spec (length (@nil (list float))) (length params)) as [Hl | Hl];
      [simpl in Hl; lia | reflexivity].
  - assert (Hc : Matrix.ncols (Matrix.scale (row0 :: d) gd) = 1).
    { unfold Matrix.ncols. simpl. rewrite length_map. apply Hd. now left. }
    unfold Matrix.transpose. rewrite Hc.
    change (Js.tabulate 1 ?g) with [g 0].
    remember (row0 :: d) as d' eqn:Ed.
    unfold Matrix.subtract, Matrix.same_size, Matrix.ncols, Matrix.nrows.
    cbn [length hd Matrix.rows_have forallb].
    rewrite !Nat.eqb_refl, !andb_true_r, andb_true_l.
    rewrite length_map. unfold Matrix.scale. rewrite length_map.
    destruct (Nat.eqb_spec (length d') (length params)) as [Hl | Hl];
      [| reflexivity].
    cbn [mbind option_bind Matrix.zip_rows zip_with hd]. f_equal.
    apply list_eq. intros k. rewrite lookup_zip_with.
    destruct (decide (k < length params)) as [Hk | Hk].
    + rewrite lookup_tabulate by exact Hk. rewrite (get_lookup params k Hk). simpl.
      rewrite !list_lookup_fmap. unfold Matrix.entry, Matrix.row.
      destruct (d' !! k) as [row |] eqn:E.
      * simpl. rewrite get_scaled_head, mul_comm; [reflexivity |].
        apply Hd. apply list_elem_of_In. eapply list_elem_of_lookup_2, E.
      * apply lookup_ge_None_1 in E. lia.
    + rewrite (lookup_ge_None_2 params k) by lia.
      rewrite (lookup_ge_None_2 (Js.tabulate _ _) k) by (rewrite length_tabulate; lia).
      reflexivity.
Qed.


(** *** Sizes *)

(** [M] has [r] rows of [c] entries each. *)
Lemma sized_ncols (r c : nat) (M : Matrix.matrix) :
  Matrix.nrows M = r -> Matrix.rows_have c M = true -> 0 < r -> Matrix.ncols M = c.
Proof.
  intros Hr Hc Hpos. destruct M as [| row M]; [simpl in Hr; lia |].
  unfold Matrix.ncols. cbn [hd]. apply (proj1 (rows_have_spec c (row :: M)) Hc). now left.
Qed.

Lemma rows_have_tabulate (n c : nat) (g : nat -> nat -> float) :
  Matrix.rows_have c (Js.tabulate n (fun p => Js.tabulate c (g p))) = true.
Proof.
  apply rows_have_spec. intros row Hin. unfold Js.tabulate at 1 in Hin.
  apply in_map_iff in Hin. destruct Hin as (p & <- & _). apply length_tabulate.
Qed.

Lemma transpose_sized (r c : nat) (M : Matrix.matrix) :
  Matrix.nrows M = r -> Matrix.rows_have c M = true -> 0 < r ->
  Matrix.nrows (Matrix.transpose M) = c /\ Matrix.rows_have r (Matrix.transpose M) = true.
Proof.
  intros Hr Hc Hpos. rewrite nrows_transpose, (sized_ncols r c M Hr Hc Hpos).
  split; [reflexivity |]. apply rows_have_spec. intros row Hin.
  unfold Matrix.transpose, Js.tabulate in Hin. apply in_map_iff in Hin.
  destruct Hin as (j & <- & _). now rewrite length_map.
Qed.

Lemma multiply_sized (r k c : nat) (A B : Matrix.matrix) :
  Matrix.nrows A = r -> Matrix.rows_have k A = true ->
  Matrix.nrows B = k -> Matrix.rows_have c B = true -> 0 < k ->
  exists D, Matrix.multiply A B = Some D /\
            Matrix.nrows D = r /\ Matrix.rows_have c D = true.
Proof.
  intros HrA HcA HrB HcB Hk. unfold Matrix.multiply.
  rewrite (sized_ncols k c B HrB HcB Hk), HrB, HcA, HcB.
  destruct (Nat.eqb_spec k 0) as [-> | _]; [lia |]. cbn [andb negb].
  eexists. split; [reflexivity |]. split; [unfold Matrix.nrows; now rewrite length_map |].
  apply rows_have_spec. intros row Hin. apply in_map_iff in Hin.
  destruct Hin as (u & <- & _). apply length_tabulate.
Qed.

Lemma scale_sized (r c : nat) (M : Matrix.matrix) (a : float) :
  Matrix.nrows M = r -> Matrix.rows_have c M = true ->
  Matrix.nrows (Matrix.scale M a) = r /\ Matrix.rows_have c (Matrix.scale M a) = true.
Proof.
  intros Hr Hc. unfold Matrix.scale, Matrix.nrows. rewrite length_map. split; [exact Hr |].
  apply rows_have_spec. intros row Hin. apply in_map_iff in Hin.
  destruct Hin as (u & <- & Hu). rewrite length_map.
  now apply (proj1 (rows_have_spec c M) Hc).
Qed.

Lemma add_sized (r c : nat) (A B : Matrix.matrix) :
  Matrix.nrows A = r -> Matrix.rows_have c A = true ->
  Matrix.nrows B = r -> Matrix.rows_have c B = true -> 0 < r ->
  exists D, Matrix.add A B = Some D /\
            Matrix.nrows D = r /\ Matrix.rows_have c D = true.
Proof.
  intros HrA HcA HrB HcB Hr. unfold Matrix.add, Matrix.same_size.
  rewrite (sized_ncols r c A HrA HcA Hr), HrA, HrB, Nat.eqb_refl, HcA, HcB. cbn [andb].
  eexists. split; [reflexivity |]. unfold Matrix.zip_rows, Matrix.nrows in *. split.
  - rewrite length_zip_with. lia.
  - apply rows_have_spec. intros row Hin. apply list_elem_of_In in Hin.
    apply elem_of_zip_with in Hin. destruct Hin as (u & w & -> & Hu & Hw).
    rewrite length_zip_with.
    rewrite (proj1 (rows_have_spec c A) HcA u), (proj1 (rows_have_spec c B) HcB w);
      [lia | now apply list_elem_of_In | now apply list_elem_of_In].
Qed.

(** C8. [step] does not change the length of the parameter vector:
    whenever it returns, the vector it returns is as long as the one it
    was given.  And it does return on a parameter vector and a data set that
    are not empty, provided the inverse of the matrix of order [n] that it
    forms is returned as a matrix of order [n]. *)
Theorem step_length (data : Data) (params : list float) (damping gd : float)
    (f : Model) :
  (forall p, step inv data params damping gd f = Some p -> length p = length params) /\
  (0 < length params -> 0 < length (x data) ->
   exists A,
     normal_matrix data params damping gd f = Some A /\
     forall B,
       inv A = Some B ->
       Matrix.nrows B = length params ->
       Matrix.rows_have (length params) B = true ->
       exists p, step inv data params damping gd f = Some p /\ length p = length params).
Proof.
  split.
  - unfold step. intros p H.
    do 5 (apply bind_Some in H; destruct H as (? & _ & H)).
    apply bind_Some in H. destruct H as (P & HP & [= <-]).
    apply subtract_row in HP. destruct HP as (t & _ & Ht & ->). cbn [hd].
    rewrite length_zip_with. lia.
  - intros Hn Hm. unfold normal_matrix, step.
    set (n := length params) in *. set (m := length (x data)) in *.
    set (ed := Js.tabulate m _).
    set (J := gradientFunction data ed params gd f).
    assert (HJ : Matrix.nrows J = n /\ Matrix.rows_have m J = true).
    { split; [apply length_tabulate | apply rows_have_tabulate]. }
    destruct HJ as [HJr HJc].
    destruct (transpose_sized n m J HJr HJc Hn) as [HTr HTc].
    destruct (multiply_sized n m n J (Matrix.transpose J) HJr HJc HTr HTc Hm)
      as (gg & Egg & Hggr & Hggc).
    rewrite Egg. cbn [mbind option_bind].
    assert (HI : Matrix.nrows (Matrix.eye n) = n /\ Matrix.rows_have n (Matrix.eye n) = true).
    { split; [apply length_tabulate | apply rows_have_tabulate]. }
    destruct (scale_sized n n (Matrix.eye n) (damping * gd * gd)%float (proj1 HI) (proj2 HI))
      as [HSr HSc].
    destruct (add_sized n n _ gg HSr HSc Hggr Hggc Hn) as (A & EA & HAr & HAc).
    exists A. split; [exact EA |]. rewrite EA. cbn [mbind option_bind].
    intros B EB HBr HBc. rewrite EB. cbn [mbind option_bind].
    destruct (multiply_sized n n m B J HBr HBc HJr HJc Hn) as (ig & Eig & Higr & Higc).
    rewrite Eig. cbn [mbind option_bind].
    assert (HR : Matrix.nrows (matrixFunction data ed) = 1 /\
                 Matrix.rows_have m (matrixFunction data ed) = true).
    { split; [reflexivity |]. unfold matrixFunction. cbn [Matrix.rows_have forallb].
      fold m. now rewrite length_tabulate, Nat.eqb_refl. }
    destruct (transpose_sized 1 m _ (proj1 HR) (proj2 HR) Nat.lt_0_1) as [HRr HRc].
    destruct (multiply_sized n m 1 ig _ Higr Higc HRr HRc Hm) as (igm & Eigm & Hgr & Hgc).
    rewrite Eigm. cbn [mbind option_bind].
    rewrite update_closed_form;
      [| fold n; lia | intros row Hin; now apply (proj1 (rows_have_spec 1 igm) Hgc)].
    fold n. unfold Matrix.nrows in Hgr. rewrite Hgr, Nat.eqb_refl.
    eexists. split; [reflexivity | apply length_tabulate].
Qed.

(** C4. [step] returns
    [params - gradientDifference * inverse(I * (damping * gradientDifference^2) + J * transpose(J)) * J * transpose(r)],
    where [J] is the matrix of [gradientFunction] at the current
    parameters, [r] is the row of the residuals [y - evaluatedData],
    [evaluatedData] is the model at the current parameters over all the
    samples and [I] is the identity of order [n]; it throws exactly when
    the closed form does. *)
Theorem step_closed_form (data : Data) (params : list float) (damping gd : float)
    (f : Model) :
  step inv data params damping gd f = step_formula inv data params damping gd f.
Proof.
  unfold step, step_formula.
  rewrite (map_tabulate (f params) (x data)).
  set (ed := Js.tabulate (length (x data)) _).
  set (J := gradientFunction data ed params gd f).
  unfold matrixFunction.
  set (r := Js.tabulate (length (x data)) _).
  destruct (Matrix.multiply J (Matrix.transpose J)) as [gg |] eqn:Egg; [| reflexivity].
  cbn [mbind option_bind].
  destruct (Matrix.add _ gg) as [a |]; [| reflexivity]. cbn [mbind option_bind].
  destruct (inv a) as [Ainv |]; [| reflexivity]. cbn [mbind option_bind].
  destruct (Matrix.multiply Ainv J) as [ig |]; [| reflexivity]. cbn [mbind option_bind].
  destruct (Matrix.multiply ig (Matrix.transpose [r])) as [d |] eqn:Ed; [| reflexivity].
  cbn [mbind option_bind].
  apply update_closed_form.
  - apply multiply_rows in Egg. destruct Egg as (_ & Hn & _).
    rewrite nrows_transpose in Hn. intros Hp. apply Hn.
    unfold J, gradientFunction. rewrite Hp. reflexivity.
  - apply multiply_rows in Ed. destruct Ed as (_ & Hm & Hrows).
    intros row Hin. rewrite (Hrows row Hin). apply ncols_transpose_row.
    intros Hr. apply Hm. rewrite nrows_transpose, Hr. reflexivity.
Qed.

End StepComputer.

Lemma step_length_witness :
  step Matrix.inv_small Sample.two_points [1%float; 1%float] 0 0.1 Sample.line
  = Some [1.9999999999999991%float; 1%float] /\
  length [1.9999999999999991%float; 1%float] = length [1%float; 1%float] /\
  exists A,
    normal_matrix Sample.two_points [1%float; 1%float] 0 0.1 Sample.line = Some A /\
    exists B p,
      Matrix.inv_small A = Some B /\
      step Matrix.inv_small Sample.two_points [1%float; 1%float] 0 0.1 Sample.line = Some p /\
      length p = 2.
Proof.
  pose proof (step_length Matrix.inv_small Sample.two_points [1%float; 1%float] 0 0.1
                Sample.line) as [Hlen Hret].
  assert (H : step Matrix.inv_small Sample.two_points [1%float; 1%float] 0 0.1 Sample.line
              = Some [1.9999999999999991%float; 1%float]) by (vm_compute; reflexivity).
  split; [exact H |]. split; [exact (Hlen _ H) |].
  assert (Hn : 0 < length [1%float; 1%float]) by (simpl; lia).
  assert (Hm : 0 < length (x Sample.two_points)) by (simpl; lia).
  destruct (Hret Hn Hm) as (A & EA & HA). exists A. split; [exact EA |].
  pose proof EA as EA'. vm_compute in EA'. injection EA' as EA'.
  assert (HB : exists B, Matrix.inv_small A = Some B /\
                        Matrix.nrows B = 2 /\ Matrix.rows_have 2 B = true).
  { rewrite <- EA'. eexists. split; [vm_compute; reflexivity | split; reflexivity]. }
  destruct HB as (B & EB & HBr & HBc).
  destruct (HA B EB HBr HBc) as (p & Ep & Hp).
  exists B, p. auto.
Defined.

(** ** Optimizer *)

Section Optimizer.

Variable inv : Matrix.matrix -> option Matrix.matrix.
Variable data : Data.
Variable f : Model.
Variable o : Options.

(** *** Phase 1 *)

Lemma bracket_unfold (fuel : nat) (err : float) (s : Bracket) :
  bracket inv data f o (S fuel) err s =
  match step inv data (par s) (damp s) (gradientDifference o) f with
  | None => Throws
  | Some stepD =>
      match step inv data (par s) (damp s / v o)%float (gradientDifference o) f with
      | None => Throws
      | Some stepV =>
          let errD := error data stepD f in
          let errV := error data stepV f in
          let next s' :=
            if Js.lt err errD || Js.lt err errV || Js.lt (count s') (maxIterations o)
            then bracket inv data f o fuel err s'
            else Returns s' in
          if Js.gt err errD || Js.gt err errV then
            if Js.gt errD errV then
              next {| par := stepV; damp := (damp s / v o)%float; count := (count s + 1)%float |}
            else Returns s
          else
            next {| par := par s; damp := (damp s * v o)%float; count := (count s + 1)%float |}
      end
  end.
Proof.
  cbn [bracket]. unfold bracket_body, bracket_continues.
  destruct (step inv data (par s) (damp s) (gradientDifference o) f) as [stepD |];
    [| reflexivity].
  cbn [lift mbind outcome_bind].
  destruct (step inv data (par s) (damp s / v o)%float (gradientDifference o) f)
    as [stepV |]; [| reflexivity].
  cbn [lift mbind outcome_bind].
  destruct (Js.gt err (error data stepD f) || Js.gt err (error data stepV f));
    [destruct (Js.gt (error data stepD f) (error data stepV f)) |]; reflexivity.
Qed.

(** When the error at the initial values is not-a-number no candidate
    compares as better or worse, and phase 1 ends once [count] is not below
    [maxIterations]: after [n] increments from 0 at the latest, when the
    counter is then not below [maxIterations]. *)
Lemma bracket_nan_terminates (fuel : nat) (err : float) (s : Bracket) (k n : nat) :
  Js.isNaN err = true ->
  count s = counter k -> k < n -> Js.lt (counter n) (maxIterations o) = false ->
  n - k <= fuel ->
  bracket inv data f o fuel err s <> Pending.
Proof.
  intros Hnan. revert s k. induction fuel as [| fuel IH]; intros s k Hk Hlt Hn Hfuel; [lia |].
  rewrite bracket_unfold.
  destruct (step inv data (par s) (damp s) (gradientDifference o) f) as [stepD |];
    [| discriminate].
  destruct (step inv data (par s) (damp s / v o)%float (gradientDifference o) f)
    as [stepV |]; [| discriminate].
  cbv zeta. rewrite !(gt_nan_l err) by exact Hnan. rewrite !(lt_nan_l err) by exact Hnan.
  cbn [orb count].
  destruct (Js.lt (count s + 1) (maxIterations o)) eqn:Eg; [| discriminate].
  apply (IH _ (S k)); cbn [count].
  - now rewrite Hk.
  - destruct (decide (S k = n)) as [<- | Hne]; [| lia].
    change (counter (S k)) with (counter k + 1)%float in Hn. rewrite <- Hk in Hn. congruence.
  - exact Hn.
  - lia.
Qed.

(** *** Phase 2 *)

Lemma refine_unfold (fuel : nat) (dmp : float) (s : Refine) :
  refine inv data f o (S fuel) dmp s =
  if Js.lt (i s) (maxIterations o) && negb (converged s) then
    match step inv data (parameters s) dmp (gradientDifference o) f with
    | None => Throws
    | Some parameters' =>
        let err' := error data parameters' f in
        let call := {| given := parameters s; given_damping := dmp;
                       stepped := parameters'; stepped_error := err' |} in
        if Js.isNaN err' then
          Returns {| parameters := parameters'; err := err'; converged := converged s;
                     i := i s; lastParams := lastParams s;
                     history := call :: history s |}
        else
          refine inv data f o fuel dmp
            {| parameters := parameters'; err := err';
               converged := Js.le err' (errorTolerance o);
               i := (i s + 1)%float; lastParams := parameters';
               history := call :: history s |}
    end
  else Returns s.
Proof.
  cbn [refine]. destruct (Js.lt (i s) (maxIterations o) && negb (converged s)); [| reflexivity].
  destruct (step inv data (parameters s) dmp (gradientDifference o) f); reflexivity.
Qed.

(** An invariant of the loop of phase 2 carries over to the state in
    which the loop ends: it is enough that a completed step preserves it
    ([Hstep]) and that the step on which the loop breaks leads from it to
    the property of the final state ([Hbreak]). *)
Lemma refine_ind (dmp : float) (I P : Refine -> Prop) :
  (forall s, I s -> P s) ->
  (forall s p',
      I s -> Js.lt (i s) (maxIterations o) = true -> converged s = false ->
      step inv data (parameters s) dmp (gradientDifference o) f = Some p' ->
      Js.isNaN (error data p' f) = false ->
      I {| parameters := p'; err := error data p' f;
           converged := Js.le (error data p' f) (errorTolerance o);
           i := (i s + 1)%float; lastParams := p';
           history := {| given := parameters s; given_damping := dmp;
                         stepped := p'; stepped_error := error data p' f |}
                      :: history s |}) ->
  (forall s p',
      I s -> Js.lt (i s) (maxIterations o) = true -> converged s = false ->
      step inv data (parameters s) dmp (gradientDifference o) f = Some p' ->
      Js.isNaN (error data p' f) = true ->
      P {| parameters := p'; err := error data p' f; converged := converged s;
           i := i s; lastParams := lastParams s;
           history := {| given := parameters s; given_damping := dmp;
                         stepped := p'; stepped_error := error data p' f |}
                      :: history s |}) ->
  forall fuel s r, I s -> refine inv data f o fuel dmp s = Returns r -> P r.
Proof.
  intros Hexit Hstep Hbreak. induction fuel as [| fuel IH]; intros s r HI; [discriminate |].
  rewrite refine_unfold.
  destruct (Js.lt (i s) (maxIterations o) && negb (converged s)) eqn:Econd.
  - apply andb_prop in Econd. destruct Econd as [Hi Hc].
    apply negb_true_iff in Hc.
    destruct (step inv data (parameters s) dmp (gradientDifference o) f) as [p' |] eqn:Es;
      [| discriminate].
    cbv zeta. destruct (Js.isNaN (error data p' f)) eqn:En.
    + intros [= <-]. now apply Hbreak.
    + apply IH. now apply Hstep.
  - intros [= <-]. now apply Hexit.
Qed.

(** Phase 2 ends once [i] is not below [maxIterations]: after [n]
    increments from 0 at the latest, when the counter is then not below
    [maxIterations]. *)
Lemma refine_terminates (fuel : nat) (dmp : float) (s : Refine) (k n : nat) :
  i s = counter k -> k <= n -> Js.lt (counter n) (maxIterations o) = false ->
  n - k < fuel ->
  refine inv data f o fuel dmp s <> Pending.
Proof.
  revert s k. induction fuel as [| fuel IH]; intros s k Hk Hle Hn Hfuel; [lia |].
  rewrite refine_unfold.
  destruct (Js.lt (i s) (maxIterations o)) eqn:Hi; [| discriminate].
  destruct (negb (converged s)); [| discriminate]. cbn [andb].
  destruct (step inv data (parameters s) dmp (gradientDifference o) f) as [p' |];
    [| discriminate].
  cbv zeta. destruct (Js.isNaN (error data p' f)); [discriminate |].
  assert (Hne : k <> n) by (intros ->; rewrite Hk in Hi; congruence).
  apply (IH _ (S k)); cbn [i]; [now rewrite Hk | lia | exact Hn | lia].
Qed.

(** Throughout phase 2 [lastParams] is what the most recent completed
    step returned, or the initial values when no step is completed yet, and
    [parameters] is the same vector unless the last error is
    not-a-number. *)
Lemma refine_last_completed (fuel : nat) (dmp : float) (r : Refine) :
  refine inv data f o fuel dmp (refine_start o (error data (initialValues o) f)) = Returns r ->
  lastParams r = last_completed (initialValues o) (history r) /\
  (Js.isNaN (err r) = false ->
   parameters r = last_completed (initialValues o) (history r)).
Proof.
  set (I := fun s => lastParams s = last_completed (initialValues o) (history s) /\
                     (Js.isNaN (err s) = false ->
                      parameters s = last_completed (initialValues o) (history s))).
  apply (refine_ind dmp I I).
  - auto.
  - intros s p' _ _ _ _ Hnan. unfold I. cbn [lastParams parameters err history last_completed].
    unfold completed. cbn [stepped_error stepped]. rewrite Hnan. cbn [negb]. auto.
  - intros s p' [Hl _] _ _ _ Hnan. unfold I.
    cbn [lastParams parameters err history last_completed].
    unfold completed. cbn [stepped_error stepped]. rewrite Hnan. cbn [negb].
    split; [exact Hl | intros Hfalse; discriminate Hfalse].
  - unfold I. cbn. auto.
Qed.

(** *** Fuel

The fuel only bounds the number of passes through a loop: a run that
returns or throws does the same with any larger fuel. *)

Lemma bracket_more_fuel (fuel fuel' : nat) (err : float) (s : Bracket) :
fuel <= fuel' ->
bracket inv data f o fuel err s <> Pending ->
bracket inv data f o fuel' err s = bracket inv data f o fuel err s.
Proof.
revert fuel' s. induction fuel as [| fuel IH]; intros fuel' s Hle Hrun;
  [now contradict Hrun |].
destruct fuel' as [| fuel']; [lia |].
cbn [bracket] in *.
destruct (bracket_body inv data f o err s) as [[[[s' | s'] errD] errV] | |];
  cbn [mbind outcome_bind] in *; try reflexivity.
destruct (bracket_continues o err errD errV s'); [| reflexivity].
apply IH; [lia | exact Hrun].
Qed.

Lemma refine_more_fuel (fuel fuel' : nat) (dmp : float) (s : Refine) :
fuel <= fuel' ->
refine inv data f o fuel dmp s <> Pending ->
refine inv data f o fuel' dmp s = refine inv data f o fuel dmp s.
Proof.
revert fuel' s. induction fuel as [| fuel IH]; intros fuel' s Hle Hrun;
  [now contradict Hrun |].
destruct fuel' as [| fuel']; [lia |].
rewrite !refine_unfold in *.
destruct (Js.lt (i s) (maxIterations o) && negb (converged s)); [| reflexivity].
destruct (step inv data (parameters s) dmp (gradientDifference o) f) as [p' |];
  [| reflexivity].
cbv zeta in *. destruct (Js.isNaN (error data p' f)); [reflexivity |].
apply IH; [lia | exact Hrun].
Qed.

Lemma lma_run_more_fuel (fuel fuel' : nat) :
fuel <= fuel' ->
lma_run inv data f o fuel <> Pending ->
lma_run inv data f o fuel' = lma_run inv data f o fuel.
Proof.
intros Hle. unfold lma_run.
pose proof (bracket_more_fuel fuel fuel' (error data (initialValues o) f)
              (bracket_start o) Hle) as Hb.
destruct (bracket inv data f o fuel _ (bracket_start o)) as [b | |] eqn:Eb.
- rewrite Hb by discriminate. cbn [mbind outcome_bind].
  pose proof (refine_more_fuel fuel fuel' (damp b)
                (refine_start o (error data (initialValues o) f)) Hle) as Hr.
  destruct (refine inv data f o fuel (damp b) _) as [r | |] eqn:Er.
  + rewrite Hr by discriminate. reflexivity.
  + rewrite Hr by discriminate. reflexivity.
  + intros H. now contradict H.
- rewrite Hb by discriminate. reflexivity.
- intros H. now contradict H.
Qed.

(** *** The result *)

Lemma lma_run_inv (fuel : nat) (b : Bracket) (r : Refine) (res : Result) :
  lma_run inv data f o fuel = Returns (b, r, res) ->
  bracket inv data f o fuel (error data (initialValues o) f) (bracket_start o) = Returns b /\
  refine inv data f o fuel (damp b) (refine_start o (error data (initialValues o) f))
    = Returns r /\
  res = result_of data f r.
Proof.
  unfold lma_run.
  destruct (bracket inv data f o fuel _ _) as [b' | |] eqn:Eb; try discriminate.
  cbn [mbind outcome_bind].
  destruct (refine inv data f o fuel (damp b') _) as [r' | |] eqn:Er; try discriminate.
  cbn [mbind outcome_bind mret outcome_ret]. intros [= <- <- <-]. auto.
Qed.

End Optimizer.

(** *** The loop of phase 1 *)

(** C3. One pass of the loop of phase 1 computes [stepD] and [stepV] with
    the dampings [damp] and [damp / v] and their errors [errD] and [errV];
    when [err > errD] or [err > errV] it either accepts [stepV] with
    [damp / v] (if [errD > errV]) or leaves the loop, otherwise it sets
    [damp] to [damp * v]; it increments the counter, and goes on as long as
    [err < errD] or [err < errV] or [count < maxIterations].  So the loop
    can run past [maxIterations] and can end before [maxIterations]. *)
Theorem bracket_iteration :
  (forall inv data f o fuel err s,
      bracket inv data f o (S fuel) err s =
      match step inv data (par s) (damp s) (gradientDifference o) f with
      | None => Throws
      | Some stepD =>
          match step inv data (par s) (damp s / v o)%float (gradientDifference o) f with
          | None => Throws
          | Some stepV =>
              let errD := error data stepD f in
              let errV := error data stepV f in
              let next s' :=
                if Js.lt err errD || Js.lt err errV || Js.lt (count s') (maxIterations o)
                then bracket inv data f o fuel err s'
                else Returns s' in
              if Js.gt err errD || Js.gt err errV then
                if Js.gt errD errV then
                  next {| par := stepV; damp := (damp s / v o)%float;
                          count := (count s + 1)%float |}
                else Returns s
              else
                next {| par := par s; damp := (damp s * v o)%float;
                        count := (count s + 1)%float |}
          end
      end) /\
  (exists data f o fuel b,
      bracket Matrix.inv_small data f o fuel (error data (initialValues o) f) (bracket_start o)
      = Returns b /\ Js.lt (maxIterations o) (count b) = true) /\
  (exists data f o fuel b,
      bracket Matrix.inv_small data f o fuel (error data (initialValues o) f) (bracket_start o)
      = Returns b /\ Js.lt (count b) (maxIterations o) = true).
Proof.
  split; [exact bracket_unfold |]. split.
  - exists Sample.point_1_1, Sample.square, Sample.overshoot, 20. eexists.
    split; [vm_compute; reflexivity | reflexivity].
  - exists Sample.two_points, Sample.line, Sample.plain, 20. eexists.
    split; [vm_compute; reflexivity | reflexivity].
Qed.

(** *** Where phase 2 starts *)

(** On the data (1, 2) with the model [params[0] * t], started at 0 with
    damping 1 and one iteration allowed, phase 1 ends with [par] at 1.2,
    and the first step of phase 2 is made from 0. *)
Lemma first_refinement_from_par_counterexample :
  ~ (forall inv data f o fuel b r res c,
        lma_run inv data f o fuel = Returns (b, r, res) ->
        first_call r = Some c ->
        given c = par b /\ given_damping c = damp b).
Proof.
  intros H.
  assert (exists b r res c,
             lma_run Matrix.inv_small Sample.point_1_2 Sample.ray Sample.damped 10
             = Returns (b, r, res) /\
             first_call r = Some c /\ given c <> par b) as (b & r & res & c & E & Ec & Hne).
  { do 4 eexists. split; [vm_compute; reflexivity |]. split; [reflexivity |].
    intros Heq. apply (f_equal (fun a => (Js.get a 0 =? 0)%float)) in Heq.
    vm_compute in Heq. discriminate. }
  destruct (H _ _ _ _ _ _ _ _ _ E Ec) as [Hg _]. contradiction.
Qed.

(** C1 (amended). The first call of [step] in phase 2 receives the initial
    values, whatever [par] is when phase 1 ends, together with the damping
    [damp] that phase 1 ended with. *)
Theorem first_refinement_from_initialValues inv data f o fuel b r res c :
  lma_run inv data f o fuel = Returns (b, r, res) ->
  first_call r = Some c ->
  bracket inv data f o fuel (error data (initialValues o) f) (bracket_start o) = Returns b /\
  given c = initialValues o /\ given_damping c = damp b.
Proof.
  intros Hrun Hc. apply lma_run_inv in Hrun. destruct Hrun as (Hb & Hr & _).
  split; [exact Hb |]. revert c Hc.
  pose (Q := fun s : Refine => forall c, first_call s = Some c ->
                 given c = initialValues o /\ given_damping c = damp b).
  change (Q r).
  apply (refine_ind inv data f o (damp b)
           (fun s => Q s /\ (history s = [] -> parameters s = initialValues o)) Q)
    with (fuel := fuel) (s := refine_start o (error data (initialValues o) f));
    [ | | | | exact Hr].
  - intros s [HQ _]. exact HQ.
  - intros s p' [HQ H0] _ _ _ _. split; [| discriminate].
    intros c. unfold first_call. cbn [history]. rewrite last_cons.
    destruct (last (history s)) as [c' |] eqn:El.
    + intros [= <-]. now apply HQ.
    + intros [= <-]. cbn [given given_damping]. apply last_None in El. auto.
  - intros s p' [HQ H0] _ _ _ _.
    intros c. unfold first_call. cbn [history]. rewrite last_cons.
    destruct (last (history s)) as [c' |] eqn:El.
    + intros [= <-]. now apply HQ.
    + intros [= <-]. cbn [given given_damping]. apply last_None in El. auto.
  - split; [| reflexivity]. intros c. discriminate.
Qed.

Lemma first_refinement_from_initialValues_witness :
  exists b r res c,
    lma_run Matrix.inv_small Sample.point_1_2 Sample.ray Sample.damped 10
    = Returns (b, r, res) /\
    first_call r = Some c /\
    given c = initialValues Sample.damped /\ given_damping c = damp b.
Proof.
  run_sample E. exists b, r, res.
  assert (Ec : exists c, first_call r = Some c) by (subst r; eexists; reflexivity).
  destruct Ec as [c Ec]. exists c.
  split; [reflexivity |]. split; [exact Ec |].
  exact (proj2 (first_refinement_from_initialValues _ _ _ _ _ _ _ _ _ E Ec)).
Defined.

(** *** The number of iterations reported *)

(** On the data (0, 1) with the model [t / params[0]], started at 0,
    phase 2 makes one step, whose error is not-a-number, and the result
    reports 0 iterations. *)
Lemma iterations_count_all_steps_counterexample :
  ~ (forall inv data f o fuel b r res,
        lma_run inv data f o fuel = Returns (b, r, res) ->
        iterations res = counter (length (history r)) /\
        Js.le (iterations res) (maxIterations o) = true).
Proof.
  intros H.
  assert (exists b r res,
             lma_run Matrix.inv_small Sample.point_0_1 Sample.ratio Sample.from_zero 10
             = Returns (b, r, res) /\
             iterations res = 0%float /\ length (history r) = 1) as (b & r & res & E & Hi & Hh).
  { do 3 eexists. split; [vm_compute; reflexivity |]. split; reflexivity. }
  destruct (H _ _ _ _ _ _ _ _ E) as [Hn _]. rewrite Hi, Hh in Hn.
  apply (f_equal (fun a => (a =? 0)%float)) in Hn. vm_compute in Hn. discriminate.
Qed.

Lemma filter_completed (h : list Call) :
  Forall (fun c => completed c = true) h -> List.filter completed h = h.
Proof.
  induction 1 as [| c h Hc _ IH]; [reflexivity |].
  cbn [List.filter]. now rewrite Hc, IH.
Qed.

(** C7 (amended). The [iterations] field of the result is the number of
    completed steps of phase 2, those whose error is a number; only the
    last step made can fail to be completed, and it is then not counted.
    A step is made only while the number of completed steps is below
    [maxIterations]: the step of index [j] (from 0) is made with
    [j < maxIterations], so that no step is made, and the field is 0, when
    [maxIterations] is zero, negative or not-a-number. *)
Theorem iterations_count_completed_steps inv data f o fuel b r res :
  lma_run inv data f o fuel = Returns (b, r, res) ->
  iterations res = counter (length (List.filter completed (history r))) /\
  Forall (fun c => completed c = true) (tail (history r)) /\
  (forall j, j < length (history r) -> Js.lt (counter j) (maxIterations o) = true) /\
  (Js.lt 0 (maxIterations o) = false -> history r = [] /\ iterations res = 0%float).
Proof.
  intros Hrun. apply lma_run_inv in Hrun. destruct Hrun as (_ & Hr & ->).
  cbn [result_of iterations].
  assert (H : i r = counter (length (List.filter completed (history r))) /\
              Forall (fun c => completed c = true) (tail (history r)) /\
              (forall j, j < length (history r) ->
                         Js.lt (counter j) (maxIterations o) = true)).
  { apply (refine_ind inv data f o (damp b)
             (fun s => i s = counter (length (history s)) /\
                       Forall (fun c => completed c = true) (history s) /\
                       (forall j, j < length (history s) ->
                                  Js.lt (counter j) (maxIterations o) = true))
             (fun s => i s = counter (length (List.filter completed (history s))) /\
                       Forall (fun c => completed c = true) (tail (history s)) /\
                       (forall j, j < length (history s) ->
                                  Js.lt (counter j) (maxIterations o) = true)))
      with (fuel := fuel) (s := refine_start o (error data (initialValues o) f));
      [ | | | | exact Hr].
    - intros s (Hi & Hall & Hlt). rewrite (filter_completed _ Hall).
      split; [exact Hi |]. split; [| exact Hlt].
      destruct (history s); [constructor | now inversion Hall].
    - intros s p' (Hi & Hall & Hlt) Hg _ _ Hnan.
      cbn [i history length]. split; [now rewrite Hi |]. split.
      + constructor; [| exact Hall]. unfold completed. cbn [stepped_error]. now rewrite Hnan.
      + intros j Hj. destruct (decide (j = length (history s))) as [-> | Hne].
        * now rewrite <- Hi.
        * apply Hlt. lia.
    - intros s p' (Hi & Hall & Hlt) Hg _ _ Hnan.
      cbn [i history List.filter tail length]. unfold completed at 1. cbn [stepped_error].
      rewrite Hnan. cbn [negb]. rewrite (filter_completed _ Hall).
      split; [exact Hi |]. split; [exact Hall |].
      intros j Hj. destruct (decide (j = length (history s))) as [-> | Hne].
      + now rewrite <- Hi.
      + apply Hlt. lia.
    - cbn. split; [reflexivity |]. split; [constructor |]. intros j Hj. lia. }
  destruct H as (Hi & Hall & Hlt). split; [exact Hi |]. split; [exact Hall |].
  split; [exact Hlt |]. intros H0.
  destruct (history r) as [| c h] eqn:Eh.
  - split; [reflexivity |]. rewrite Hi. reflexivity.
  - specialize (Hlt 0 ltac:(cbn; lia)). change (counter 0) with 0%float in Hlt. congruence.
Qed.

(** With two and a half iterations allowed, three steps are made and
    completed: the count before the third, 2, is below 2.5. *)
Lemma iterations_count_completed_steps_witness :
  exists b r res,
    lma_run Matrix.inv_small Sample.point_1_2 Sample.ray Sample.fractional 10
    = Returns (b, r, res) /\
    length (history r) = 3 /\
    iterations res = counter (length (List.filter completed (history r))) /\
    iterations res = 3%float /\
    Js.lt (counter 2) (maxIterations Sample.fractional) = true.
Proof.
  run_sample E. exists b, r, res. split; [reflexivity |].
  pose proof (iterations_count_completed_steps _ _ _ _ _ _ _ _ E) as (H1 & _ & H3 & _).
  assert (Hlen : length (history r) = 3) by (subst r; reflexivity).
  split; [exact Hlen |]. split; [exact H1 |].
  split; [subst res; reflexivity |]. apply H3. lia.
Defined.

(** *** Not-a-number in the result *)

(** On the same input the error at the initial values is not-a-number, no
    step is completed, and the error recomputed at [lastParams], the
    initial values, is not-a-number again. *)
Lemma nan_never_returned_counterexample :
  ~ (forall inv data f o fuel b r res,
        lma_run inv data f o fuel = Returns (b, r, res) ->
        Js.isNaN (err r) = true ->
        parameterValues res = lastParams r /\
        parameterError res = error data (lastParams r) f /\
        Js.isNaN (parameterError res) = false /\
        Forall (fun a => Js.isNaN a = false) (parameterValues res)).
Proof.
  intros H.
  assert (exists b r res,
             lma_run Matrix.inv_small Sample.point_0_1 Sample.ratio Sample.from_zero 10
             = Returns (b, r, res) /\
             Js.isNaN (err r) = true /\
             Js.isNaN (parameterError res) = true) as (b & r & res & E & Herr & Hpe).
  { do 3 eexists. split; [vm_compute; reflexivity |]. split; reflexivity. }
  destruct (H _ _ _ _ _ _ _ _ E Herr) as (_ & _ & Hn & _). congruence.
Qed.

(** C2 (amended). When the error with which phase 2 ends is
    not-a-number, the result reports [lastParams] as [parameterValues] and
    the error recomputed by [error] on [lastParams] as [parameterError];
    [lastParams] is what the most recent completed step returned, the last
    vector whose error was a number, or the initial values when no step was
    completed.  In every result [parameterError] is the error at
    [parameterValues], and [parameterValues] is either the initial values or
    a vector at which the error is a number; so [parameterError] is a number
    whenever the error at the initial values is one.  When the error at the
    initial values is not-a-number, [lma] ends, by returning or by an
    exception of the linear algebra, provided the loop counter reaches a
    value that is not below [maxIterations]: if it does so after [n]
    increments from 0, each loop makes at most [n] passes. *)
Theorem nan_recovery inv data f o :
  (forall n fuel,
      Js.isNaN (error data (initialValues o) f) = true ->
      1 <= n -> Js.lt (counter n) (maxIterations o) = false -> n < fuel ->
      lma_run inv data f o fuel <> Pending) /\
  (forall fuel b r res,
      lma_run inv data f o fuel = Returns (b, r, res) ->
      lastParams r = last_completed (initialValues o) (history r) /\
      (Js.isNaN (err r) = true ->
       parameterValues res = lastParams r /\
       parameterError res = error data (lastParams r) f) /\
      parameterError res = error data (parameterValues res) f /\
      (parameterValues res = initialValues o \/ Js.isNaN (parameterError res) = false) /\
      (Js.isNaN (error data (initialValues o) f) = false ->
       Js.isNaN (parameterError res) = false)).
Proof.
  split.
  - intros n fuel Hnan H1 Hn Hfuel. unfold lma_run.
    pose proof (bracket_nan_terminates inv data f o fuel _ (bracket_start o) 0 n Hnan) as Hb.
    destruct (bracket inv data f o fuel _ (bracket_start o)) as [b | |];
      [| discriminate | exfalso; apply Hb; [reflexivity | lia | exact Hn | lia | reflexivity]].
    cbn [mbind outcome_bind].
    pose proof (refine_terminates inv data f o fuel (damp b)
                  (refine_start o (error data (initialValues o) f)) 0 n) as Hr.
    destruct (refine inv data f o fuel (damp b) _) as [r | |];
      [discriminate | discriminate |].
    exfalso. apply Hr; [reflexivity | lia | exact Hn | lia | reflexivity].
  - intros fuel b r res Hrun. apply lma_run_inv in Hrun. destruct Hrun as (_ & Hr & ->).
    split; [exact (proj1 (refine_last_completed inv data f o _ _ _ Hr)) |].
    assert (Hinv : err r = error data (parameters r) f /\
                   (lastParams r = initialValues o \/
                    Js.isNaN (error data (lastParams r) f) = false)).
    { apply (refine_ind inv data f o (damp b)
               (fun s => err s = error data (parameters s) f /\
                         (lastParams s = initialValues o \/
                          Js.isNaN (error data (lastParams s) f) = false))
               (fun s => err s = error data (parameters s) f /\
                         (lastParams s = initialValues o \/
                          Js.isNaN (error data (lastParams s) f) = false)))
        with (fuel := fuel) (s := refine_start o (error data (initialValues o) f));
        [ | | | | exact Hr].
      - auto.
      - intros s p' _ _ _ _ Hnan. cbn. auto.
      - intros s p' [_ Hl] _ _ _ _. cbn. auto.
      - cbn. auto. }
    destruct Hinv as [Herr Hlast]. cbn [result_of parameterValues parameterError].
    destruct (Js.isNaN (err r)) eqn:En.
    + split; [auto |]. split; [reflexivity |]. split.
      * destruct Hlast as [-> | Hl]; auto.
      * intros H0. destruct Hlast as [-> | Hl]; auto.
    + split; [discriminate |]. split; [exact Herr |]. split; auto.
Qed.

(** On the data (0, 1) with the model [t / params[0]], started at 0 with
    three iterations allowed, the error at the initial values is
    not-a-number and [lma] ends.  On the data (1, 0) with the model
    [Math.sqrt(params[0]) * t], started at 1, two steps are completed and
    the third leads to a negative parameter, where the error is
    not-a-number: the result reports what the second step returned. *)
Lemma nan_recovery_witness :
  Js.isNaN (error Sample.point_0_1 (initialValues Sample.from_zero) Sample.ratio) = true /\
  Js.lt (counter 3) (maxIterations Sample.from_zero) = false /\
  lma_run Matrix.inv_small Sample.point_0_1 Sample.ratio Sample.from_zero 10 <> Pending /\
  exists b r res,
    lma_run Matrix.inv_small Sample.point_1_0 Sample.root Sample.from_one 10
    = Returns (b, r, res) /\
    Js.isNaN (err r) = true /\
    length (history r) = 3 /\
    lastParams r = [0.049832208831475211%float] /\
    parameterValues res = lastParams r /\
    parameterError res = error Sample.point_1_0 (parameterValues res) Sample.root.
Proof.
  assert (Hnan : Js.isNaN (error Sample.point_0_1 (initialValues Sample.from_zero)
                                 Sample.ratio) = true) by reflexivity.
  assert (Hn : Js.lt (counter 3) (maxIterations Sample.from_zero) = false) by reflexivity.
  assert (H1 : 1 <= 3) by lia.
  assert (Hfuel : 3 < 10) by lia.
  split; [exact Hnan |]. split; [exact Hn |].
  split.
  - exact (proj1 (nan_recovery Matrix.inv_small Sample.point_0_1 Sample.ratio
                    Sample.from_zero) 3 10 Hnan H1 Hn Hfuel).
  - run_sample E. exists b, r, res. split; [reflexivity |].
    assert (Herr : Js.isNaN (err r) = true) by (subst r; reflexivity).
    pose proof (proj2 (nan_recovery Matrix.inv_small Sample.point_1_0 Sample.root
                         Sample.from_one) 10 b r res E) as (H0 & H2 & H3 & _).
    destruct (H2 Herr) as [Hpv _].
    split; [exact Herr |]. split; [subst r; reflexivity |].
    split; [rewrite H0; subst r; reflexivity | auto].
Defined.

(** *** A fit

    The line through (0, 1) and (1, 3), fitted from (1, 1) with the default
    settings: one refinement step reaches the tolerance. *)
Example two_points_fit :
  exists res,
    lma_with Matrix.inv_small Sample.two_points Sample.line Sample.plain 20 = Returns res /\
    iterations res = 1%float /\
    Js.le (parameterError res) (errorTolerance Sample.plain) = true.
Proof.
  eexists. split; [vm_compute; reflexivity |]. split; reflexivity.
Qed.

(** ** Arrays on the heap *)

Section HeapLogic.

Import Heap.

Lemma wp_ret {A : Type} (a : A) (Q : A -> heap -> Prop) (h : heap) :
  Q a h -> wp (mret a) Q h.
Proof. intros H. exact H. Qed.

Lemma wp_bind {A B : Type} (m : M A) (k : A -> M B) (Q : B -> heap -> Prop) (h : heap) :
  wp m (fun a h' => wp (k a) Q h') h -> wp (m ≫= k) Q h.
Proof.
  unfold wp, mbind, M_bind. destruct (m h) as [[a h'] | |]; auto.
Qed.

Lemma wp_mono {A : Type} (m : M A) (Q Q' : A -> heap -> Prop) (h : heap) :
  wp m Q h -> (forall a h', Q a h' -> Q' a h') -> wp m Q' h.
Proof.
  unfold wp. destruct (m h) as [[a h'] | |]; auto.
Qed.

Lemma wp_returns {A : Type} (m : M A) (Q : A -> heap -> Prop) (h : heap) a h' :
  wp m Q h -> m h = Returns (a, h') -> Q a h'.
Proof. unfold wp. intros H E. now rewrite E in H. Qed.

Lemma wp_throw {A : Type} (Q : A -> heap -> Prop) (h : heap) : wp throw Q h.
Proof. exact Logic.I. Qed.

Lemma wp_pending {A : Type} (Q : A -> heap -> Prop) (h : heap) : wp pending Q h.
Proof. exact Logic.I. Qed.

Lemma wp_lift {A : Type} (o : option A) (Q : A -> heap -> Prop) (h : heap) :
  (forall a, o = Some a -> Q a h) -> wp (Heap.lift o) Q h.
Proof. destruct o as [a |]; intros H; [now apply H | exact Logic.I]. Qed.

Lemma wp_alloc (a : list slot) (Q : loc -> heap -> Prop) (h : heap) :
  (forall l, h !! l = None -> Q l (<[l := a]> h)) -> wp (alloc a) Q h.
Proof.
  intros H. unfold wp, alloc. apply H. apply not_elem_of_dom, is_fresh.
Qed.

Lemma wp_load (l : loc) (Q : list slot -> heap -> Prop) (h : heap) :
  (forall a, h !! l = Some a -> Q a h) -> wp (load l) Q h.
Proof.
  intros H. unfold wp, load. destruct (h !! l) as [a |]; [now apply H | exact Logic.I].
Qed.

Lemma wp_store (l : loc) (k : nat) (w : slot) (Q : unit -> heap -> Prop) (h : heap) :
  (forall a, h !! l = Some a -> Q tt (<[l := assign a k w]> h)) -> wp (store l k w) Q h.
Proof.
  intros H. unfold wp, store. destruct (h !! l) as [a |]; [now apply H | exact Logic.I].
Qed.

Lemma wp_length_of (l : loc) (Q : nat -> heap -> Prop) (h : heap) :
  (forall a, h !! l = Some a -> Q (length a) h) -> wp (length_of l) Q h.
Proof. intros H. apply wp_bind, wp_load. intros a Ha. now apply wp_ret, H. Qed.

Lemma wp_read (l : loc) (k : nat) (Q : float -> heap -> Prop) (h : heap) :
  (forall a, h !! l = Some a -> Q (to_number (default Empty (a !! k))) h) ->
  wp (read l k) Q h.
Proof. intros H. apply wp_bind, wp_load. intros a Ha. now apply wp_ret, H. Qed.

Lemma wp_deref (l : loc) (k : nat) (Q : loc -> heap -> Prop) (h : heap) :
  (forall a r, h !! l = Some a -> a !! k = Some (Ref r) -> Q r h) ->
  wp (deref l k) Q h.
Proof.
  intros H. apply wp_bind, wp_load. intros a Ha.
  destruct (a !! k) as [[| r |] |] eqn:E; try apply wp_throw.
  now apply wp_ret, (H a).
Qed.

Lemma wp_call (f : Model) (params : loc) (t : float) (Q : float -> heap -> Prop) (h : heap) :
  (forall a, h !! params = Some a -> Q (f (numbers a) t) h) -> wp (call f params t) Q h.
Proof. intros H. apply wp_bind, wp_load. intros a Ha. now apply wp_ret, H. Qed.

Lemma wp_concat (l : loc) (Q : loc -> heap -> Prop) (h : heap) :
  (forall a l', h !! l = Some a -> h !! l' = None -> Q l' (<[l' := a]> h)) ->
  wp (concat l) Q h.
Proof.
  intros H. apply wp_bind, wp_load. intros a Ha. apply wp_alloc. intros l' Hl'.
  now apply H.
Qed.

(** A loop keeps what each pass of its body keeps. *)
Lemma wp_for_each (I : heap -> Prop) (ks : list nat) (body : nat -> M unit)
    (Q : unit -> heap -> Prop) (h : heap) :
  I h ->
  (forall k h', In k ks -> I h' -> wp (body k) (fun _ => I) h') ->
  (forall h', I h' -> Q tt h') ->
  wp (for_each ks body) Q h.
Proof.
  intros HI Hbody HQ. revert h HI. induction ks as [| k ks IH]; intros h HI.
  - now apply wp_ret, HQ.
  - cbn [for_each]. apply wp_bind.
    apply wp_mono with (Q := fun _ => I); [apply Hbody; [now left | exact HI] |].
    intros _ h' HI'. apply IH; [| exact HI'].
    intros k' h'' Hin. apply Hbody. now right.
Qed.

Lemma wp_fold_each {A : Type} (I : heap -> Prop) (ks : list nat) (acc : A)
    (body : A -> nat -> M A) (Q : A -> heap -> Prop) (h : heap) :
  I h ->
  (forall acc' k h', In k ks -> I h' -> wp (body acc' k) (fun _ => I) h') ->
  (forall acc' h', I h' -> Q acc' h') ->
  wp (fold_each ks acc body) Q h.
Proof.
  intros HI Hbody HQ. revert acc h HI. induction ks as [| k ks IH]; intros acc h HI.
  - now apply wp_ret, HQ.
  - cbn [fold_each]. apply wp_bind.
    apply wp_mono with (Q := fun _ => I); [apply Hbody; [now left | exact HI] |].
    intros acc' h' HI'. apply IH; [| exact HI'].
    intros acc'' k' h'' Hin. apply Hbody. now right.
Qed.

Lemma wp_mapM {A B : Type} (I : heap -> Prop) (g : A -> M B) (l : list A)
    (Q : list B -> heap -> Prop) (h : heap) :
  I h ->
  (forall a h', In a l -> I h' -> wp (g a) (fun _ => I) h') ->
  (forall bs h', I h' -> Q bs h') ->
  wp (mapM g l) Q h.
Proof.
  intros HI Hg HQ. revert h Q HI HQ. induction l as [| a l IH]; intros h Q HI HQ.
  - now apply wp_ret, HQ.
  - cbn [mapM]. apply wp_bind.
    apply wp_mono with (Q := fun _ => I); [apply Hg; [now left | exact HI] |].
    intros b h' HI'. apply wp_bind. apply IH; [| exact HI' |].
    + intros a' h'' Hin. apply Hg. now right.
    + intros bs h'' HI''. now apply wp_ret, HQ.
Qed.

Lemma assign_lookup (a : list slot) (k : nat) (w : slot) : assign a k w !! k = Some w.
Proof.
  unfold assign. destruct (decide (k < length a)) as [Hk | Hk].
  - now apply list_lookup_insert_eq.
  - rewrite lookup_app_r by lia. rewrite lookup_app_r by (rewrite length_replicate; lia).
    rewrite length_replicate. now replace (k - length a - (k - length a)) with 0 by lia.
Qed.

(** An array holds numbers and nothing else exactly when every slot of
    it holds a number. *)
Lemma as_numbers_Some (a : list slot) (ns : list float) :
  as_numbers a = Some ns <-> a = map Num ns.
Proof.
  unfold as_numbers. rewrite mapM_Some. split.
  - induction 1 as [| w b a ns Hw _ IH]; [reflexivity |].
    destruct w; try discriminate. injection Hw as ->. cbn. now rewrite IH.
  - intros ->. induction ns as [| b ns IH]; constructor; auto.
Qed.


(** *** What the functions leave unchanged *)

Lemma error_read_only (data : Data) (params : loc) (f : Model) (h : heap) :
  wp (error data params f) (fun _ h' => h' = h) h.
Proof.
  unfold error. apply wp_bind, wp_length_of. intros xs _.
  apply wp_fold_each with (I := fun h' => h' = h); [reflexivity | | auto].
  intros acc k h' _ ->.
  apply wp_bind, wp_read. intros ? _. apply wp_bind, wp_read. intros ? _.
  apply wp_bind, wp_call. intros ? _. now apply wp_ret.
Qed.

Lemma error_preserves (h0 : heap) (data : Data) (params : loc) (f : Model) :
  preserves h0 (error data params f).
Proof.
  intros h Hsub. eapply wp_mono; [apply error_read_only |].
  intros _ h' ->. exact Hsub.
Qed.

Lemma matrix_of_preserves (h0 : heap) (l : loc) : preserves h0 (matrix_of l).
Proof.
  intros h Hsub. unfold matrix_of. apply wp_bind, wp_load. intros rows _.
  apply wp_mapM with (I := fun h' => h0 ⊆ h'); [exact Hsub | | auto].
  intros [a | r |] h' _ Hsub'; try apply wp_throw.
  apply wp_bind, wp_load. intros row _. now apply wp_ret.
Qed.

Lemma gradientFunction_preserves (h0 : heap) (data : Data) (evaluatedData params : loc)
    (gd : float) (f : Model) :
  preserves h0 (gradientFunction data evaluatedData params gd f).
Proof.
  intros h Hsub. unfold gradientFunction, new_Array.
  apply wp_bind, wp_length_of. intros ps _.
  apply wp_bind, wp_length_of. intros xs _.
  apply wp_bind, wp_alloc. intros ans Hans.
  assert (Hans0 : h0 !! ans = None) by (eapply lookup_weaken_None; eassumption).
  apply wp_bind.
  apply wp_for_each with (I := fun h' => h0 ⊆ h' /\ is_Some (h' !! ans)).
  - split; [now apply insert_subseteq_r | rewrite lookup_insert_eq; eauto].
  - intros param h1 _ [Hsub1 Hans1].
    apply wp_bind, wp_alloc. intros row Hrow.
    assert (Hrow0 : h0 !! row = None) by (eapply lookup_weaken_None; eassumption).
    assert (Hne : row <> ans) by (intros ->; rewrite Hrow in Hans1; now destruct Hans1).
    apply wp_bind, wp_store. intros a1 Ha1.
    apply wp_bind, wp_concat. intros a2 aux _ Haux.
    assert (Hne' : aux <> ans) by (intros ->; now rewrite lookup_insert_eq in Haux).
    assert (Haux0 : h0 !! aux = None).
    { eapply lookup_weaken_None; [exact Haux |].
      now apply insert_subseteq_r, insert_subseteq_r. }
    apply wp_bind, wp_read. intros a3 _.
    apply wp_bind, wp_store. intros a4 _.
    apply wp_for_each
      with (I := fun h' => h0 ⊆ h' /\
                           exists a, h' !! ans = Some a /\ a !! param = Some (Ref row)).
    + split.
      * now apply insert_subseteq_r, insert_subseteq_r, insert_subseteq_r, insert_subseteq_r.
      * exists (assign a1 param (Ref row)).
        rewrite !lookup_insert_ne by congruence. rewrite lookup_insert_eq.
        split; [reflexivity | apply assign_lookup].
    + intros point h2 _ (Hsub2 & a & Ha & Hp).
      apply wp_bind, wp_deref. intros a' target Ha' Ht.
      assert (target = row) as -> by congruence.
      apply wp_bind, wp_read. intros ? _. apply wp_bind, wp_read. intros ? _.
      apply wp_bind, wp_call. intros ? _. apply wp_store. intros arr _. split.
      * now apply insert_subseteq_r.
      * exists a. now rewrite lookup_insert_ne by congruence.
    + intros h2 (Hsub2 & a & Ha & _). eauto.
  - intros h1 [Hsub1 _]. now apply matrix_of_preserves.
Qed.

Lemma matrixFunction_preserves (h0 : heap) (data : Data) (evaluatedData : loc) :
  preserves h0 (matrixFunction data evaluatedData).
Proof.
  intros h Hsub. unfold matrixFunction, new_Array.
  apply wp_bind, wp_length_of. intros xs _.
  apply wp_bind, wp_alloc. intros ans Hans.
  assert (Hans0 : h0 !! ans = None) by (eapply lookup_weaken_None; eassumption).
  apply wp_bind.
  apply wp_for_each with (I := fun h' => h0 ⊆ h').
  - now apply insert_subseteq_r.
  - intros point h1 _ Hsub1.
    apply wp_bind, wp_read. intros ? _. apply wp_bind, wp_read. intros ? _.
    apply wp_store. intros arr _. now apply insert_subseteq_r.
  - intros h1 Hsub1. apply wp_bind, wp_load. intros row _. now apply wp_ret.
Qed.

Lemma preserves_ret {A : Type} (h0 : heap) (a : A) : preserves h0 (mret a).
Proof. intros h Hsub. now apply wp_ret. Qed.

Lemma preserves_bind {A B : Type} (h0 : heap) (m : M A) (k : A -> M B) :
  preserves h0 m -> (forall a, preserves h0 (k a)) -> preserves h0 (m ≫= k).
Proof.
  intros Hm Hk h Hsub. apply wp_bind. eapply wp_mono; [apply Hm, Hsub |].
  intros a h' Hsub'. now apply Hk.
Qed.

Lemma preserves_pending {A : Type} (h0 : heap) : preserves h0 (@pending A).
Proof. intros h _. apply wp_pending. Qed.

Section Fit.

Variable inv : Matrix.matrix -> option Matrix.matrix.

Lemma step_preserves (h0 : heap) (data : Data) (params : loc) (damping gd : float)
    (f : Model) :
  preserves h0 (step inv data params damping gd f).
Proof.
  intros h Hsub. unfold step, new_Array.
  apply wp_bind, wp_length_of. intros ps _.
  apply wp_bind, wp_length_of. intros xs _.
  apply wp_bind, wp_alloc. intros ed Hed.
  assert (Hed0 : h0 !! ed = None) by (eapply lookup_weaken_None; eassumption).
  apply wp_bind.
  apply wp_for_each with (I := fun h' => h0 ⊆ h').
  - now apply insert_subseteq_r.
  - intros k h1 _ Hsub1.
    apply wp_bind, wp_read. intros ? _. apply wp_bind, wp_call. intros ? _.
    apply wp_store. intros arr _. now apply insert_subseteq_r.
  - intros h1 Hsub1. apply wp_bind.
    eapply wp_mono; [apply (gradientFunction_preserves h0), Hsub1 |].
    intros J h2 Hsub2. apply wp_bind.
    eapply wp_mono; [apply (matrixFunction_preserves h0), Hsub2 |].
    intros R h3 Hsub3.
    apply wp_bind, wp_lift. intros gg _. apply wp_bind, wp_lift. intros a _.
    apply wp_bind, wp_lift. intros ai _. apply wp_bind, wp_lift. intros ig _.
    apply wp_bind, wp_lift. intros igm _. apply wp_bind, wp_load. intros cur _.
    apply wp_bind, wp_lift. intros row _.
    apply wp_bind, wp_lift. intros p _. apply wp_alloc. intros l Hl.
    apply insert_subseteq_r; [| exact Hsub3].
    eapply lookup_weaken_None; eassumption.
Qed.

Variable data : Data.
Variable f : Model.
Variable o : Options.

Lemma bracket_body_preserves (h0 : heap) (err : float) (s : Bracket) :
  preserves h0 (bracket_body inv data f o err s).
Proof.
  unfold bracket_body.
  apply preserves_bind; [apply step_preserves | intros stepD].
  apply preserves_bind; [apply error_preserves | intros errD].
  apply preserves_bind; [apply step_preserves | intros stepV].
  apply preserves_bind; [apply error_preserves | intros errV].
  destruct (Js.gt err errD || Js.gt err errV); [destruct (Js.gt errD errV) |];
    apply preserves_ret.
Qed.

Lemma bracket_preserves (h0 : heap) (fuel : nat) (err : float) (s : Bracket) :
  preserves h0 (bracket inv data f o fuel err s).
Proof.
  revert s. induction fuel as [| fuel IH]; intros s; [apply preserves_pending |].
  cbn [bracket]. apply preserves_bind; [apply bracket_body_preserves |].
  intros [[[s' | s'] errD] errV]; [| apply preserves_ret].
  destruct (bracket_continues o err errD errV s'); [apply IH | apply preserves_ret].
Qed.

Lemma refine_preserves (h0 : heap) (fuel : nat) (dmp : float) (s : Refine) :
  preserves h0 (refine inv data f o fuel dmp s).
Proof.
  revert s. induction fuel as [| fuel IH]; intros s; [apply preserves_pending |].
  cbn [refine].
  destruct (Js.lt (i s) (maxIterations o) && negb (converged s)); [| apply preserves_ret].
  apply preserves_bind; [apply step_preserves | intros p'].
  apply preserves_bind; [apply error_preserves | intros err'].
  destruct (Js.isNaN err'); [apply preserves_ret | apply IH].
Qed.

Lemma lma_preserves (h0 : heap) (fuel : nat) :
  preserves h0 (lma inv data f o fuel).
Proof.
  unfold lma.
  apply preserves_bind; [apply error_preserves | intros err0].
  apply preserves_bind; [apply bracket_preserves | intros b].
  apply preserves_bind; [apply refine_preserves | intros r].
  destruct (Js.isNaN (err r)); [| apply preserves_ret].
  apply preserves_bind; [apply error_preserves | intros e]. apply preserves_ret.
Qed.

End Fit.

End HeapLogic.

(** C10. No operation changes its inputs.  After a call of [lma] every
    array that was on the heap before the call, and so the arrays [x] and
    [y] of the data and the array [initialValues] of the options, has the
    elements it had; [error] leaves the whole heap as it was; and
    [gradientFunction] and [step] leave every array that was on the heap as
    it was, the parameter vector among them: [gradientFunction] increments
    a parameter in a copy only.  The options object itself is only read:
    the procedure has no assignment to a property of it or of [data]. *)
Theorem inputs_unchanged (inv : Matrix.matrix -> option Matrix.matrix) (f : Model)
    (data : Heap.Data) :
  (forall (o : Heap.Options) fuel h res h',
      Heap.lma inv data f o fuel h = Returns (res, h') ->
      forall l a, h !! l = Some a -> h' !! l = Some a) /\
  (forall params h e h',
      Heap.error data params f h = Returns (e, h') -> h' = h) /\
  (forall evaluatedData params gd h J h',
      Heap.gradientFunction data evaluatedData params gd f h = Returns (J, h') ->
      forall l a, h !! l = Some a -> h' !! l = Some a) /\
  (forall params damping gd h p h',
      Heap.step inv data params damping gd f h = Returns (p, h') ->
      forall l a, h !! l = Some a -> h' !! l = Some a).
Proof.
  repeat split.
  - intros o fuel h res h' Hrun l a Hl.
    pose proof (wp_returns _ _ _ _ _ (lma_preserves inv data f o h fuel h (reflexivity h)) Hrun)
      as Hsub.
    exact (lookup_weaken _ _ _ _ Hl Hsub).
  - intros params h e h' Hrun.
    exact (wp_returns _ _ _ _ _ (error_read_only data params f h) Hrun).
  - intros evaluatedData params gd h J h' Hrun l a Hl.
    pose proof (wp_returns _ _ _ _ _
                  (gradientFunction_preserves h data evaluatedData params gd f h
                     (reflexivity h)) Hrun) as Hsub.
    exact (lookup_weaken _ _ _ _ Hl Hsub).
  - intros params damping gd h p h' Hrun l a Hl.
    pose proof (wp_returns _ _ _ _ _
                  (step_preserves inv h data params damping gd f h (reflexivity h)) Hrun)
      as Hsub.
    exact (lookup_weaken _ _ _ _ Hl Hsub).
Qed.

Lemma inputs_unchanged_witness :
  exists res h',
    Heap.lma Matrix.inv_small Sample.two_points_at Sample.line Sample.plain_at 20 Sample.arrays
    = Returns (res, h') /\
    h' !! 0 = Some [Heap.Num 0; Heap.Num 1] /\
    h' !! 1 = Some [Heap.Num 1; Heap.Num 3] /\
    h' !! 2 = Some [Heap.Num 1; Heap.Num 1].
Proof.
  destruct (Heap.lma Matrix.inv_small Sample.two_points_at Sample.line Sample.plain_at 20
              Sample.arrays) as [[res h'] | |] eqn:E;
    [| exfalso; vm_compute in E; discriminate ..].
  exists res, h'. split; [reflexivity |].
  pose proof (proj1 (inputs_unchanged Matrix.inv_small Sample.line Sample.two_points_at)
                _ _ _ _ _ E) as H.
  repeat split; apply H; reflexivity.
Defined.
(** ** The call without options *)

Section Completion.

Import Heap.

Lemma ends_ret {A : Type} (a : A) : ends (mret a).
Proof. intros h. discriminate. Qed.

Lemma ends_throw {A : Type} : ends (@throw A).
Proof. intros h. discriminate. Qed.

Lemma ends_bind {A B : Type} (m : M A) (k : A -> M B) :
  ends m -> (forall a, ends (k a)) -> ends (m ≫= k).
Proof.
  intros Hm Hk h. unfold mbind, M_bind. specialize (Hm h).
  destruct (m h) as [[a h'] | |]; [apply Hk | discriminate | contradiction].
Qed.

Lemma ends_lift {A : Type} (o : option A) : ends (Heap.lift o).
Proof. destruct o; [apply ends_ret | apply ends_throw]. Qed.

Lemma ends_alloc (a : list slot) : ends (alloc a).
Proof. intros h. discriminate. Qed.

Lemma ends_load (l : loc) : ends (load l).
Proof. intros h. unfold load. destruct (h !! l); discriminate. Qed.

Lemma ends_store (l : loc) (k : nat) (w : slot) : ends (store l k w).
Proof. intros h. unfold store. destruct (h !! l); discriminate. Qed.

Lemma ends_for_each (ks : list nat) (body : nat -> M unit) :
  (forall k, ends (body k)) -> ends (for_each ks body).
Proof.
  intros Hbody. induction ks as [| k ks IH]; [apply ends_ret |].
  cbn [for_each]. apply ends_bind; auto.
Qed.

Lemma ends_fold_each {A : Type} (ks : list nat) (acc : A) (body : A -> nat -> M A) :
  (forall acc' k, ends (body acc' k)) -> ends (fold_each ks acc body).
Proof.
  intros Hbody. revert acc. induction ks as [| k ks IH]; intros acc; [apply ends_ret |].
  cbn [fold_each]. apply ends_bind; auto.
Qed.

Lemma ends_mapM {A B : Type} (g : A -> M B) (l : list A) :
  (forall a, ends (g a)) -> ends (mapM g l).
Proof.
  intros Hg. induction l as [| a l IH]; [apply ends_ret |].
  cbn [mapM]. apply ends_bind; [apply Hg | intros b].
  apply ends_bind; [exact IH | intros bs; apply ends_ret].
Qed.

(** Decomposes a computation into its steps, none of which uses fuel. *)
Ltac ends :=
  repeat first
    [ apply ends_ret | apply ends_throw | apply ends_lift | apply ends_alloc
    | apply ends_load | apply ends_store
    | apply ends_for_each; intros ? | apply ends_fold_each; intros ? ?
    | apply ends_mapM; intros ?
    | apply ends_bind; [| intros ?]
    | match goal with |- ends (match ?w with _ => _ end) => destruct w end ].

Lemma ends_error (data : Data) (params : loc) (f : Model) : ends (error data params f).
Proof. unfold error, length_of, read, call. ends. Qed.

Lemma ends_step (inv : Matrix.matrix -> option Matrix.matrix) (data : Data) (params : loc)
    (damping gd : float) (f : Model) :
  ends (step inv data params damping gd f).
Proof.
  unfold step, gradientFunction, matrixFunction, matrix_of, new_Array, concat, length_of,
    read, deref, call.
  ends.
Qed.

Lemma wp_and {A : Type} (m : M A) (Q Q' : A -> heap -> Prop) (h : heap) :
  wp m Q h -> wp m Q' h -> wp m (fun a h' => Q a h' /\ Q' a h') h.
Proof. unfold wp. destruct (m h) as [[a h'] | |]; auto. Qed.

(** Without parameters the matrix of [gradientFunction] has no row. *)
Lemma gradientFunction_no_parameters (data : Data) (evaluatedData params : loc)
    (gd : float) (f : Model) (h : heap) :
  h !! params = Some [] ->
  wp (gradientFunction data evaluatedData params gd f) (fun J _ => J = []) h.
Proof.
  intros Hp. unfold gradientFunction, new_Array.
  apply wp_bind, wp_length_of. intros a Ha. assert (a = []) as -> by congruence.
  apply wp_bind, wp_length_of. intros xs _.
  apply wp_bind, wp_alloc. intros ans Hans.
  cbn [length seq for_each replicate]. apply wp_bind, wp_ret.
  unfold matrix_of. apply wp_bind, wp_load. intros rows Hrows.
  rewrite lookup_insert_eq in Hrows. injection Hrows as <-.
  cbn [mapM]. now apply wp_ret.
Qed.

Lemma as_numbers_empty (a : list slot) : Empty ∈ a -> as_numbers a = None.
Proof.
  intros H. destruct (as_numbers a) as [ns |] eqn:E; [| reflexivity].
  apply as_numbers_Some in E. subst a.
  apply list_elem_of_fmap in H. destruct H as (b & Hb & _). discriminate.
Qed.

Section Fit.

Variable inv : Matrix.matrix -> option Matrix.matrix.

(** [step] throws on a parameter array that has an empty slot, and on one
    without elements: on the first in [math.subtract], on the second in the
    product of two matrices without rows. *)
Lemma step_needs_numbers (data : Data) (params : loc) (damping gd : float) (f : Model)
    (h : heap) (a : list slot) :
  h !! params = Some a -> Empty ∈ a \/ a = [] ->
  step inv data params damping gd f h = Throws.
Proof.
  intros Hp Ha.
  assert (Ha' : as_numbers a = None \/ a = [])
    by (destruct Ha as [Ha | Ha]; [left; now apply as_numbers_empty | now right]).
  clear Ha. rename Ha' into Ha.
  assert (Hwp : wp (step inv data params damping gd f) (fun _ _ => False) h).
  { unfold step, new_Array.
    apply wp_bind, wp_length_of. intros ps _.
    apply wp_bind, wp_length_of. intros xs _.
    apply wp_bind, wp_alloc. intros ed Hed.
    apply wp_bind.
    apply wp_for_each with (I := fun h' => h ⊆ h').
    - now apply insert_subseteq_r.
    - intros k h1 _ Hsub1.
      apply wp_bind, wp_read. intros ? _. apply wp_bind, wp_call. intros ? _.
      apply wp_store. intros arr _. now apply insert_subseteq_r.
    - intros h1 Hsub1. apply wp_bind.
      eapply wp_mono.
      + apply wp_and with (Q' := fun J _ => a = [] -> J = []);
          [apply (gradientFunction_preserves h), Hsub1 |].
        destruct Ha as [Ha | ->].
        * eapply wp_mono; [apply (gradientFunction_preserves h), Hsub1 |].
          intros J h' _ ->. discriminate Ha.
        * eapply wp_mono;
            [apply gradientFunction_no_parameters, (lookup_weaken _ _ _ _ Hp Hsub1) |].
          auto.
      + intros J h2 [Hsub2 HJ]. apply wp_bind.
        eapply wp_mono; [apply (matrixFunction_preserves h), Hsub2 |].
        intros R h3 Hsub3.
        apply wp_bind, wp_lift. intros gg Hgg.
        destruct Ha as [Ha | ->]; [| rewrite (HJ eq_refl) in Hgg; discriminate Hgg].
        apply wp_bind, wp_lift. intros A _.
        apply wp_bind, wp_lift. intros ai _. apply wp_bind, wp_lift. intros ig _.
        apply wp_bind, wp_lift. intros igm _. apply wp_bind, wp_load. intros cur Hcur.
        rewrite (lookup_weaken _ _ _ _ Hp Hsub3) in Hcur. injection Hcur as <-.
        rewrite Ha. apply wp_bind, wp_throw. }
  pose proof (ends_step inv data params damping gd f h) as Hends.
  unfold wp in Hwp.
  destruct (step inv data params damping gd f h) as [[l h'] | |];
    [contradiction | reflexivity | contradiction].
Qed.

(** So does [lma] when the array [initialValues] is such an array: the
    first pass of phase 1 begins with a call of [step] on it. *)
Lemma lma_needs_numbers (data : Data) (f : Model) (o : Options) (fuel : nat)
    (h : heap) (a : list slot) :
  h !! initialValues o = Some a -> Empty ∈ a \/ a = [] ->
  lma inv data f o (S fuel) h = Throws.
Proof.
  intros Hp Ha. unfold lma.
  pose proof (error_read_only data (initialValues o) f h) as Herr.
  pose proof (ends_error data (initialValues o) f h) as Hends.
  unfold wp in Herr. unfold mbind at 1, M_bind at 1.
  destruct (error data (initialValues o) f h) as [[e h'] | |];
    [subst h' | reflexivity | contradiction].
  cbn [bracket]. unfold bracket_body. cbn [par damp].
  unfold mbind, M_bind.
  now rewrite (step_needs_numbers data _ _ _ f h a Hp Ha).
Qed.

End Fit.

End Completion.

(** C9.  Called without the argument [options], [lma] takes the default
    object: [damping] 0, [gradientDifference] 0.1, [maxIterations] 100,
    [errorTolerance] 0.01, [v] 1.5 and, for [initialValues], a new array
    with as many slots as the model function declares parameters, all of
    them empty, because [map] skips the empty slots of [new Array(n)].
    With such initial values the call throws in the first pass of phase 1,
    whatever the data and the model are. *)
Theorem omitted_options_throw (inv : Matrix.matrix -> option Matrix.matrix) (arity : nat)
    (data : Heap.Data) (f : Model) (fuel : nat) (h : Heap.heap) :
  (exists o h',
      Heap.default_options arity h = Returns (o, h') /\
      Heap.damping o = 0%float /\
      Heap.gradientDifference o = 0.1%float /\
      Heap.maxIterations o = 100%float /\
      Heap.errorTolerance o = 0.01%float /\
      Heap.v o = 1.5%float /\
      h !! Heap.initialValues o = None /\
      h' !! Heap.initialValues o = Some (replicate arity Heap.Empty)) /\
  Heap.lma_call inv arity data f None (S fuel) h = Throws.
Proof.
  set (l1 := fresh (dom h)).
  set (h1 := <[l1 := replicate arity Heap.Empty]> h).
  set (l2 := fresh (dom h1)).
  set (h2 := <[l2 := replicate arity Heap.Empty]> h1).
  set (o := {| Heap.damping := 0; Heap.errorTolerance := 10e-3;
               Heap.gradientDifference := 10e-2; Heap.initialValues := l2;
               Heap.maxIterations := 100; Heap.v := 1.5 |}).
  assert (Hdef : Heap.default_options arity h = Returns (o, h2)).
  { assert (Hmap : forall n,
               map (fun w => match w with
                             | Heap.Empty => Heap.Empty
                             | _ => Heap.Num 1
                             end) (replicate n Heap.Empty) = replicate n Heap.Empty).
    { induction n as [| n IH]; [reflexivity | cbn; now rewrite IH]. }
    unfold Heap.default_options, Heap.new_Array, Heap.map_array, Heap.alloc, Heap.load,
      mbind, Heap.M_bind, mret, Heap.M_ret.
    cbv beta iota. fold l1. fold h1. unfold h1 at 1. rewrite lookup_insert_eq.
    cbv beta iota. fold h1. fold l2. rewrite Hmap. reflexivity. }
  assert (Hl2 : h1 !! l2 = None) by apply not_elem_of_dom, is_fresh.
  assert (Hl1 : h !! l1 = None) by apply not_elem_of_dom, is_fresh.
  split.
  - exists o, h2. split; [exact Hdef |]. repeat split.
    + eapply lookup_weaken_None; [exact Hl2 |]. now apply insert_subseteq.
    + unfold h2. cbn [Heap.initialValues o]. apply lookup_insert_eq.
  - unfold Heap.lma_call. unfold mbind, Heap.M_bind. rewrite Hdef.
    apply (lma_needs_numbers inv data f o fuel h2 (replicate arity Heap.Empty)).
    + unfold h2. cbn [Heap.initialValues o]. apply lookup_insert_eq.
    + destruct arity as [| n]; [now right | left; cbn; apply list_elem_of_here].
Qed.

(** The fit of the line through (0, 1) and (1, 3): with the settings of the
    default object and the initial values (1, 1) given in an options object
    it returns after one iteration; without the options argument it
    throws. *)
Example two_points_without_options :
  (exists res h',
      Heap.lma_call Matrix.inv_small 1 Sample.two_points_at Sample.line
                    (Some Sample.plain_at) 20 Sample.arrays = Returns (res, h') /\
      Heap.iterations res = 1%float) /\
  Heap.lma_call Matrix.inv_small 1 Sample.two_points_at Sample.line None 20 Sample.arrays
  = Throws.
Proof.
  split; [| vm_compute; reflexivity].
  eexists _, _. split; [vm_compute; reflexivity | reflexivity].
Qed.

(** ** The two embeddings agree

    Run on a Heap.heap, each function returns what the function on values
    returns for the elements that the arrays hold. *)

Section Agreement.










(** *** [error] *)


(** *** Arrays filled by a loop *)




Lemma lookup_insert_fresh (h : Heap.heap) (l l' : Heap.loc) (a c : list Heap.slot) :
  h !! l' = None -> <[l' := c]> h !! l = Some a -> l <> l' -> h !! l = Some a.
Proof. intros Hl' Hl Hne. now rewrite lookup_insert_ne in Hl by congruence. Qed.

(** *** [matrixFunction] *)


(** *** [gradientFunction] *)





(** *** [step] *)

Section Fit.

Variable inv : Matrix.matrix -> option Matrix.matrix.


(** *** The loops and [lma] *)

Variable d : Heap.Data.
Variable f : Model.
Variable o : Heap.Options.
Variable data : Data.
Variable init : list float.





End Fit.

End Agreement.


(** * Further properties of the procedure *)

(** ** Signs in IEEE 754 arithmetic *)

Section Signs.

Local Open Scope float_scope.

(** A rounded value has the sign it was given, or is not-a-number. *)
Lemma binary_round_aux_sign (s : bool) (m e : Z) (l : location) :
  match binary_round_aux prec emax s m e l with
  | S754_zero s' => s' = s
  | S754_infinity s' => s' = s
  | S754_finite s' _ _ => s' = s
  | S754_nan => True
  end.
Proof.
  unfold binary_round_aux.
  destruct (shr_fexp prec emax m e l) as [mrs' e'].
  destruct (shr_fexp prec emax _ e' loc_Exact) as [mrs'' e''].
  destruct (shr_m mrs'') as [| p | p]; [reflexivity | | exact Logic.I].
  now destruct (e'' <=? emax - prec)%Z.
Qed.

Lemma binary_round_sign (s : bool) (m : positive) (e : Z) :
  match binary_round prec emax s m e with
  | S754_zero s' => s' = s
  | S754_infinity s' => s' = s
  | S754_finite s' _ _ => s' = s
  | S754_nan => True
  end.
Proof.
  unfold binary_round. destruct (shl_align m e _) as [mz ez]. apply binary_round_aux_sign.
Qed.

(** [a < 0] is false exactly for not-a-number, the zeros, and the positive
    numbers and infinity. *)
Lemma lt_zero_spec (a : float) :
  Js.lt a 0 = false <->
  match Prim2SF a with
  | S754_infinity s => s = false
  | S754_finite s _ _ => s = false
  | _ => True
  end.
Proof.
  unfold Js.lt. rewrite ltb_spec. change (Prim2SF 0) with (S754_zero false).
  destruct (Prim2SF a) as [s | s | | s m e]; try destruct s; cbn; intuition congruence.
Qed.

Lemma abs_not_negative (a : float) : Js.lt (abs a) 0 = false.
Proof.
  apply lt_zero_spec. rewrite abs_spec. now destruct (Prim2SF a).
Qed.

Lemma add_not_negative (a b : float) :
  Js.lt a 0 = false -> Js.lt b 0 = false -> Js.lt (a + b) 0 = false.
Proof.
  rewrite !lt_zero_spec, add_spec. unfold SF64add, SFadd.
  destruct (Prim2SF a) as [s | s | | s m e], (Prim2SF b) as [s' | s' | | s' m' e'];
    intros Ha Hb; subst; try exact Logic.I; try reflexivity;
    try (destruct s; exact Logic.I); try (destruct s'; exact Logic.I);
    try (destruct s, s'; exact Logic.I).
  cbn [cond_Zopp].
  change (Z.pos ?p + Z.pos ?q)%Z with (Z.pos (p + q)). cbn [binary_normalize].
  match goal with
  | |- context [binary_round prec emax false ?p ?q] =>
      pose proof (binary_round_sign false p q) as H;
      destruct (binary_round prec emax false p q); auto
  end.
Qed.

Lemma mul_not_negative (a b : float) :
  Js.lt a 0 = false -> Js.lt b 0 = false -> Js.lt (a * b) 0 = false.
Proof.
  rewrite !lt_zero_spec, mul_spec. unfold SF64mul, SFmul.
  destruct (Prim2SF a) as [s | s | | s m e], (Prim2SF b) as [s' | s' | | s' m' e'];
    intros Ha Hb; subst; try exact Logic.I; try reflexivity.
  cbn [xorb].
  match goal with
  | |- context [binary_round_aux prec emax false ?p ?q ?l] =>
      pose proof (binary_round_aux_sign false p q l) as H;
      destruct (binary_round_aux prec emax false p q l); auto
  end.
Qed.

(** [b > 0] holds exactly for the positive numbers and infinity. *)
Lemma gt_zero_spec (b : float) :
  Js.gt b 0 = true <->
  match Prim2SF b with
  | S754_infinity s => s = false
  | S754_finite s _ _ => s = false
  | _ => False
  end.
Proof.
  unfold Js.gt. rewrite ltb_spec. change (Prim2SF 0) with (S754_zero false).
  destruct (Prim2SF b) as [s | s | | s m e]; try destruct s; cbn; intuition congruence.
Qed.

(** The quotient by a negative zero of a positive number is negative; by a
    positive divisor it is not. *)
Lemma div_not_negative (a b : float) :
  Js.lt a 0 = false -> Js.gt b 0 = true -> Js.lt (a / b) 0 = false.
Proof.
  rewrite gt_zero_spec, !lt_zero_spec, div_spec. unfold SF64div, SFdiv.
  destruct (Prim2SF a) as [s | s | | s m e], (Prim2SF b) as [s' | s' | | s' m' e'];
    intros Ha Hb; subst; try exact Logic.I; try reflexivity; try contradiction.
  destruct (SFdiv_core_binary prec emax _ _ _ _) as [[mz ez] lz].
  cbn [xorb].
  pose proof (binary_round_aux_sign false mz ez lz) as H.
  destruct (binary_round_aux prec emax false mz ez lz); auto.
Qed.

Lemma SFcompare_Lt_Gt (a b : spec_float) :
  SFcompare a b = Some Lt -> SFcompare b a = Some Gt.
Proof.
  destruct a as [s | s | | s m e], b as [s' | s' | | s' m' e']; cbn;
    try discriminate; try (destruct s; discriminate || reflexivity);
    try (destruct s'; discriminate || reflexivity);
    try (destruct s, s'; discriminate || reflexivity).
  assert (Hp : Pos.compare_cont Eq m' m = CompOpp (Pos.compare_cont Eq m m'))
    by (symmetry; apply (Pos.compare_cont_antisym m m' Eq)).
  rewrite (Z.compare_antisym e e'), Hp.
  destruct s, s'; try discriminate; try reflexivity;
    destruct (e ?= e')%Z; cbn [CompOpp]; try discriminate; try reflexivity;
    destruct (Pos.compare_cont Eq m m'); cbn [CompOpp]; try discriminate; reflexivity.
Qed.

(** [a < b] excludes [a > b]. *)
Lemma lt_not_gt (a b : float) : Js.lt a b = true -> Js.gt a b = false.
Proof.
  unfold Js.lt, Js.gt. rewrite !ltb_spec. unfold SFltb.
  destruct (SFcompare (Prim2SF a) (Prim2SF b)) as [[| |] |] eqn:E; try discriminate.
  intros _. now rewrite (SFcompare_Lt_Gt _ _ E).
Qed.

Lemma gt_zero_not_lt (b : float) : Js.gt b 0 = true -> Js.lt b 0 = false.
Proof.
  rewrite gt_zero_spec, lt_zero_spec. now destruct (Prim2SF b).
Qed.

End Signs.

(** ** ErrorEvaluator *)

Lemma residual_sum_not_negative (data : Data) (evaluator : float -> float) (k : nat) :
  Js.lt (residual_sum data evaluator k) 0 = false.
Proof.
  induction k as [| k IH]; [reflexivity |].
  cbn [residual_sum]. apply add_not_negative; [exact IH | apply abs_not_negative].
Qed.

Lemma error_not_negative (data : Data) (params : list float) (f : Model) :
  Js.lt (error data params f) 0 = false.
Proof.
  unfold error. rewrite error_unfold. apply residual_sum_not_negative.
Qed.

Lemma residual_sum_nan_term (data : Data) (evaluator : float -> float) (k i : nat) :
  i < k ->
  Js.isNaN (Js.get (y data) i - evaluator (Js.get (x data) i))%float = true ->
  Js.isNaN (residual_sum data evaluator k) = true.
Proof.
  intros Hi Hnan. induction k as [| k IH]; [lia |].
  cbn [residual_sum]. destruct (decide (i = k)) as [-> | Hne].
  - apply isNaN_add_r. now rewrite isNaN_abs.
  - apply isNaN_add_l, IH. lia.
Qed.

Lemma get_out_of_range (a : list float) (k : nat) : length a <= k -> Js.get a k = nan.
Proof. intros Hk. unfold Js.get. now rewrite lookup_ge_None_2. Qed.

(** When [data.y] has fewer elements than [data.x], the sample after the
    last element of [y] has the residual [undefined - func(x)], which is
    not-a-number, and so is the error. *)
Lemma error_nan_short_y (data : Data) (params : list float) (f : Model) :
  length (y data) < length (x data) ->
  Js.isNaN (error data params f) = true.
Proof.
  intros Hlen. unfold error. rewrite error_unfold.
  apply residual_sum_nan_term with (i := length (y data)); [exact Hlen |].
  apply isNaN_sub_l. now rewrite get_out_of_range.
Qed.

(** ** Optimizer *)

Section FitProperties.

Variable inv : Matrix.matrix -> option Matrix.matrix.
Variable data : Data.
Variable f : Model.
Variable o : Options.

(** Throughout phase 2 [err] is the error at [parameters]. *)
Lemma refine_err (fuel : nat) (dmp : float) (r : Refine) :
  refine inv data f o fuel dmp (refine_start o (error data (initialValues o) f)) = Returns r ->
  err r = error data (parameters r) f.
Proof.
  apply (refine_ind inv data f o dmp
           (fun s => err s = error data (parameters s) f)
           (fun s => err s = error data (parameters s) f)); auto.
Qed.

(** A run that returns was given some fuel. *)
Lemma refine_returns_fuel (fuel : nat) (dmp : float) (s r : Refine) :
  refine inv data f o fuel dmp s = Returns r -> exists fuel', fuel = S fuel'.
Proof. destruct fuel; [discriminate | eauto]. Qed.

(** X1. The error is a sum of absolute values: it is never below zero (it is
    zero, positive, infinite or not-a-number), and neither is the
    [parameterError] of a result of [lma]. *)
Theorem error_never_negative :
  (forall params, Js.lt (error data params f) 0 = false) /\
  (forall fuel b r res,
      lma_run inv data f o fuel = Returns (b, r, res) ->
      Js.lt (parameterError res) 0 = false).
Proof.
  split; [intros params; apply error_not_negative |].
  intros fuel b r res Hrun. apply lma_run_inv in Hrun. destruct Hrun as (_ & Hr & ->).
  cbn [result_of parameterError].
  destruct (Js.isNaN (err r)); [apply error_not_negative |].
  rewrite (refine_err _ _ _ Hr). apply error_not_negative.
Qed.

(** X2. With fewer elements in [data.y] than in [data.x] every error is
    not-a-number, whatever the parameters: no step of phase 2 is completed,
    and [lma], when it returns, returns the initial values with a
    [parameterError] that is not-a-number and 0 iterations. *)
Theorem short_y_gives_nan :
  length (y data) < length (x data) ->
  (forall params, Js.isNaN (error data params f) = true) /\
  (forall fuel b r res,
      lma_run inv data f o fuel = Returns (b, r, res) ->
      iterations res = 0%float /\
      parameterValues res = initialValues o /\
      Js.isNaN (parameterError res) = true).
Proof.
  intros Hlen.
  pose proof (fun p => error_nan_short_y data p f Hlen) as Hnan.
  split; [exact Hnan |].
  intros fuel b r res Hrun. apply lma_run_inv in Hrun. destruct Hrun as (_ & Hr & ->).
  destruct (refine_returns_fuel _ _ _ _ Hr) as [fuel' ->].
  rewrite refine_unfold in Hr.
  assert (Hres : i r = 0%float /\ lastParams r = initialValues o /\ Js.isNaN (err r) = true).
  { destruct (_ && _).
    - destruct (step inv data _ _ _ f) as [p' |]; [| discriminate].
      cbv zeta in Hr. rewrite Hnan in Hr. injection Hr as <-. cbn. auto.
    - injection Hr as <-. cbn. auto. }
  destruct Hres as (Hi & Hl & He). unfold result_of. rewrite He, Hi, Hl.
  cbn. auto.
Qed.

Lemma le_true_not_nan (a c : float) : Js.le a c = true -> Js.isNaN a = false.
Proof.
  intros Hle. destruct (Js.isNaN a) eqn:E; [| reflexivity].
  rewrite (le_nan_l a c E) in Hle. discriminate.
Qed.

(** X5. When the initial values already meet the tolerance, phase 2 makes no
    step: [lma], when it returns, returns the initial values, their error
    and 0 iterations. *)
Theorem already_within_tolerance (fuel : nat) (b : Bracket) (r : Refine) (res : Result) :
  Js.le (error data (initialValues o) f) (errorTolerance o) = true ->
  lma_run inv data f o fuel = Returns (b, r, res) ->
  history r = [] /\
  iterations res = 0%float /\
  parameterValues res = initialValues o /\
  parameterError res = error data (initialValues o) f.
Proof.
  intros Hle Hrun. apply lma_run_inv in Hrun. destruct Hrun as (_ & Hr & ->).
  destruct (refine_returns_fuel _ _ _ _ Hr) as [fuel' ->].
  rewrite refine_unfold in Hr. cbn [refine_start converged] in Hr.
  rewrite Hle, andb_false_r in Hr. injection Hr as <-.
  unfold result_of. cbn [refine_start err i parameters lastParams history].
  rewrite (le_true_not_nan _ _ Hle). auto.
Qed.

Lemma refine_exit_reason (fuel : nat) (dmp : float) :
  forall s r,
    converged s = Js.le (err s) (errorTolerance o) ->
    refine inv data f o fuel dmp s = Returns r ->
    Js.isNaN (err r) = true \/
    Js.le (err r) (errorTolerance o) = true \/
    Js.lt (i r) (maxIterations o) = false.
Proof.
  induction fuel as [| fuel IH]; intros s r Hc Hr; [discriminate |].
  rewrite refine_unfold in Hr.
  destruct (Js.lt (i s) (maxIterations o)) eqn:Hi.
  - destruct (converged s) eqn:Ec; cbn [andb negb] in Hr.
    + injection Hr as <-. right. left. now rewrite <- Hc.
    + destruct (step inv data (parameters s) dmp (gradientDifference o) f) as [p' |];
        [| discriminate].
      cbv zeta in Hr. destruct (Js.isNaN (error data p' f)) eqn:En.
      * injection Hr as <-. now left.
      * now apply IH in Hr.
  - cbn [andb] in Hr. injection Hr as <-. right. now right.
Qed.

(** X9. [lma] returns for one of three reasons: the last step gave an error
    that is not-a-number, the error returned is within the tolerance, or
    the number of iterations made is not below [maxIterations]. *)
Theorem returns_for_a_reason (fuel : nat) (b : Bracket) (r : Refine) (res : Result) :
  lma_run inv data f o fuel = Returns (b, r, res) ->
  Js.isNaN (err r) = true \/
  Js.le (parameterError res) (errorTolerance o) = true \/
  Js.lt (iterations res) (maxIterations o) = false.
Proof.
  intros Hrun. apply lma_run_inv in Hrun. destruct Hrun as (_ & Hr & ->).
  apply refine_exit_reason in Hr; [| reflexivity].
  unfold result_of. cbn [iterations parameterError].
  destruct (Js.isNaN (err r)); [now left | exact Hr].
Qed.

(** X8. Phase 2 ends when the counter reaches [maxIterations]: if the
    counter, after [n] increments from 0, is not below [maxIterations], then
    once phase 1 has ended [lma] returns or throws after at most [n] steps
    of phase 2. *)
Theorem ends_when_phase_1_ends (fuel0 fuel n : nat) :
  bracket inv data f o fuel0 (error data (initialValues o) f) (bracket_start o) <> Pending ->
  fuel0 <= fuel ->
  Js.lt (counter n) (maxIterations o) = false -> n < fuel ->
  lma_run inv data f o fuel <> Pending.
Proof.
  intros Hb Hle Hn Hmax. unfold lma_run.
  rewrite (bracket_more_fuel inv data f o fuel0 fuel _ _ Hle Hb).
  destruct (bracket inv data f o fuel0 _ (bracket_start o)) as [b | |];
    [| discriminate | now contradict Hb].
  cbn [mbind outcome_bind].
  pose proof (refine_terminates inv data f o fuel (damp b)
                (refine_start o (error data (initialValues o) f)) 0 n) as Hr.
  destruct (refine inv data f o fuel (damp b) _) as [r | |]; [discriminate | discriminate |].
  exfalso. apply Hr; [reflexivity | lia | exact Hn | lia | reflexivity].
Qed.

(** X4. The body of the loop of phase 1 runs before any test: when [step]
    throws at the initial values, with the damping [damping] or with
    [damping / v], [lma] throws, whatever [maxIterations] is and even when
    the initial values are within the tolerance. *)
Theorem throws_at_the_start (fuel : nat) :
  step inv data (initialValues o) (damping o) (gradientDifference o) f = None \/
  step inv data (initialValues o) (damping o / v o)%float (gradientDifference o) f = None ->
  lma_with inv data f o (S fuel) = Throws.
Proof.
  intros H. unfold lma_with, lma_run. rewrite bracket_unfold.
  cbn [bracket_start par damp].
  destruct (step inv data (initialValues o) (damping o) (gradientDifference o) f);
    [| reflexivity].
  destruct H as [H | H]; [discriminate |]. now rewrite H.
Qed.

(** *** Phase 1 *)

(** X6. With a damping that neither [/ v] nor [* v] changes (0 is one), both
    candidates of a pass are the same step; when that step makes the error
    larger, the pass changes nothing but [count] and the loop condition
    [err < errD] holds again: the loop never ends, and [lma] never
    returns. *)
Theorem phase_1_never_ends (pD : list float) :
  (damping o / v o)%float = damping o ->
  (damping o * v o)%float = damping o ->
  step inv data (initialValues o) (damping o) (gradientDifference o) f = Some pD ->
  Js.lt (error data (initialValues o) f) (error data pD f) = true ->
  forall fuel, lma_with inv data f o fuel = Pending.
Proof.
  intros Hdiv Hmul Hstep Hlt fuel.
  assert (Hstuck : forall cnt,
             bracket inv data f o fuel (error data (initialValues o) f)
                     {| par := initialValues o; damp := damping o; count := cnt |}
             = Pending).
  { induction fuel as [| fuel IH]; intros cnt; [reflexivity |].
    rewrite bracket_unfold. cbn [par damp count]. rewrite Hdiv, Hstep. cbv zeta.
    rewrite (lt_not_gt _ _ Hlt), Hlt, Hmul. cbn [orb]. apply IH. }
  unfold lma_with, lma_run, bracket_start. now rewrite Hstuck.
Qed.

(** Whatever one pass of the loop of phase 1 keeps, phase 1 keeps. *)
Lemma bracket_invariant (I : Bracket -> Prop) :
  (forall s stepV,
      I s ->
      step inv data (par s) (damp s / v o)%float (gradientDifference o) f = Some stepV ->
      I {| par := stepV; damp := (damp s / v o)%float; count := (count s + 1)%float |}) ->
  (forall s, I s ->
      I {| par := par s; damp := (damp s * v o)%float; count := (count s + 1)%float |}) ->
  forall fuel err s b, I s -> bracket inv data f o fuel err s = Returns b -> I b.
Proof.
  intros Haccept Hraise. induction fuel as [| fuel IH]; intros err s b HI; [discriminate |].
  rewrite bracket_unfold.
  destruct (step inv data (par s) (damp s) (gradientDifference o) f) as [stepD |];
    [| discriminate].
  destruct (step inv data (par s) (damp s / v o)%float (gradientDifference o) f)
    as [stepV |] eqn:EV; [| discriminate].
  cbv zeta.
  destruct (Js.gt err (error data stepD f) || Js.gt err (error data stepV f)).
  - destruct (Js.gt (error data stepD f) (error data stepV f)).
    + destruct (_ || _); [apply IH | intros [= <-]]; now apply Haccept.
    + now intros [= <-].
  - destruct (_ || _); [apply IH | intros [= <-]]; now apply Hraise.
Qed.

Lemma bracket_nan_run (err : float) :
  Js.isNaN err = true ->
  forall fuel s b k,
    count s = counter k ->
    bracket inv data f o fuel err s = Returns b ->
    exists n,
      k < n /\ count b = counter n /\
      Js.lt (counter n) (maxIterations o) = false /\
      (forall j, k < j < n -> Js.lt (counter j) (maxIterations o) = true) /\
      par b = par s /\
      damp b = Nat.iter (n - k) (fun d => (d * v o)%float) (damp s).
Proof.
  intros Hnan. induction fuel as [| fuel IH]; intros s b k Hk; [discriminate |].
  rewrite bracket_unfold.
  destruct (step inv data (par s) (damp s) (gradientDifference o) f) as [stepD |];
    [| discriminate].
  destruct (step inv data (par s) (damp s / v o)%float (gradientDifference o) f)
    as [stepV |]; [| discriminate].
  cbv zeta. rewrite !(gt_nan_l err) by exact Hnan. rewrite !(lt_nan_l err) by exact Hnan.
  cbn [orb count]. rewrite Hk. change (counter k + 1)%float with (counter (S k)).
  destruct (Js.lt (counter (S k)) (maxIterations o)) eqn:Eg.
  - intros Hb. apply (IH _ _ (S k)) in Hb; [| reflexivity]. cbn [par damp count] in Hb.
    destruct Hb as (n & Hn & Hc & Hend & Hbelow & Hp & Hd).
    exists n. split; [lia |]. split; [exact Hc |]. split; [exact Hend |].
    split; [| split; [exact Hp |]].
    + intros j Hj. destruct (decide (j = S k)) as [-> | Hne]; [exact Eg | apply Hbelow; lia].
    + rewrite Hd. replace (n - k) with (S (n - S k)) by lia.
      now rewrite Nat.iter_succ_r.
  - intros [= <-]. cbn [par damp count]. exists (S k).
    split; [lia |]. split; [reflexivity |]. split; [exact Eg |].
    split; [intros j Hj; lia |]. split; [reflexivity |].
    now replace (S k - k) with 1 by lia.
Qed.

(** X7. When the error at the initial values is not-a-number, phase 1 can
    compare nothing: it makes a pass, and further passes as long as
    [count] is below [maxIterations], so that it ends with [count] at the
    first value from 1 on that is not below [maxIterations]; it keeps [par]
    at the initial values and multiplies the damping by [v] at every
    pass. *)
Theorem phase_1_on_nan (fuel : nat) (b : Bracket) (r : Refine) (res : Result) :
  Js.isNaN (error data (initialValues o) f) = true ->
  lma_run inv data f o fuel = Returns (b, r, res) ->
  exists n,
    1 <= n /\ count b = counter n /\
    Js.lt (counter n) (maxIterations o) = false /\
    (forall j, 1 <= j < n -> Js.lt (counter j) (maxIterations o) = true) /\
    par b = initialValues o /\
    damp b = Nat.iter n (fun d => (d * v o)%float) (damping o).
Proof.
  intros Hnan Hrun. apply lma_run_inv in Hrun. destruct Hrun as (Hb & _ & _).
  apply (bracket_nan_run _ Hnan _ _ _ 0) in Hb; [| reflexivity].
  cbn [bracket_start par damp count] in Hb.
  destruct Hb as (n & Hn & Hc & Hend & Hbelow & Hp & Hd).
  exists n. split; [lia |]. split; [exact Hc |]. split; [exact Hend |].
  split; [intros j Hj; apply Hbelow; lia |]. split; [exact Hp |].
  now rewrite Nat.sub_0_r in Hd.
Qed.

(** *** What phase 1 and phase 2 keep *)

Lemma step_keeps_length (params : list float) (dmp gd : float) (p : list float) :
  step inv data params dmp gd f = Some p -> length p = length params.
Proof.
  unfold step. intros H.
  do 5 (apply bind_Some in H; destruct H as (? & _ & H)).
  apply bind_Some in H. destruct H as (P & HP & [= <-]).
  apply subtract_row in HP. destruct HP as (t & _ & Ht & ->). cbn [hd].
  rewrite length_zip_with. lia.
Qed.

(** X12. The number of parameters never changes: [par] at the end of phase 1,
    [parameters] at the end of phase 2 and the [parameterValues] returned
    are as long as the initial values. *)
Theorem lengths_are_kept (fuel : nat) (b : Bracket) (r : Refine) (res : Result) :
  lma_run inv data f o fuel = Returns (b, r, res) ->
  length (par b) = length (initialValues o) /\
  length (parameters r) = length (initialValues o) /\
  length (parameterValues res) = length (initialValues o).
Proof.
  intros Hrun. apply lma_run_inv in Hrun. destruct Hrun as (Hb & Hr & ->).
  split.
  - apply (bracket_invariant (fun s => length (par s) = length (initialValues o)))
      with (fuel := fuel) (err := error data (initialValues o) f) (s := bracket_start o);
      [ | | reflexivity | exact Hb].
    + intros s stepV Hs HV. cbn [par]. now rewrite (step_keeps_length _ _ _ _ HV).
    + intros s Hs. exact Hs.
  - assert (H : length (parameters r) = length (initialValues o) /\
                length (lastParams r) = length (initialValues o)).
    { apply (refine_ind inv data f o (damp b)
               (fun s => length (parameters s) = length (initialValues o) /\
                         length (lastParams s) = length (initialValues o))
               (fun s => length (parameters s) = length (initialValues o) /\
                         length (lastParams s) = length (initialValues o)))
        with (fuel := fuel) (s := refine_start o (error data (initialValues o) f));
        [ | | | | exact Hr].
      - auto.
      - intros s p' [Hp _] _ _ Hs _. cbn. rewrite (step_keeps_length _ _ _ _ Hs). auto.
      - intros s p' [Hp Hl] _ _ Hs _. cbn. rewrite (step_keeps_length _ _ _ _ Hs). auto.
      - cbn. auto. }
    destruct H as [Hp Hl]. split; [exact Hp |].
    unfold result_of. cbn [parameterValues]. now destruct (Js.isNaN (err r)).
Qed.

(** X10. Phase 2 iterates [step] with one damping, the one phase 1 ended with:
    every call is given what the call before it returned (the first, the
    initial values) and that damping, and records the error at what it
    returned. *)
Theorem phase_2_iterates_step (fuel : nat) (b : Bracket) (r : Refine) (res : Result) :
  lma_run inv data f o fuel = Returns (b, r, res) ->
  chained (initialValues o) (history r) /\
  parameters r = current (initialValues o) (history r) /\
  Forall (fun c => given_damping c = damp b /\
                   step inv data (given c) (damp b) (gradientDifference o) f
                   = Some (stepped c) /\
                   stepped_error c = error data (stepped c) f) (history r).
Proof.
  intros Hrun. apply lma_run_inv in Hrun. destruct Hrun as (_ & Hr & _).
  set (ok := fun c => given_damping c = damp b /\
                      step inv data (given c) (damp b) (gradientDifference o) f
                      = Some (stepped c) /\
                      stepped_error c = error data (stepped c) f).
  set (I := fun s => chained (initialValues o) (history s) /\
                     parameters s = current (initialValues o) (history s) /\
                     Forall ok (history s)).
  change (I r).
  apply (refine_ind inv data f o (damp b) I I)
    with (fuel := fuel) (s := refine_start o (error data (initialValues o) f));
    [ | | | | exact Hr].
  - auto.
  - intros s p' (Hc & Hp & Hall) _ _ Hs _. unfold I. cbn.
    repeat split; auto. constructor; [| exact Hall]. unfold ok. cbn. auto.
  - intros s p' (Hc & Hp & Hall) _ _ Hs _. unfold I. cbn.
    repeat split; auto. constructor; [| exact Hall]. unfold ok. cbn. auto.
  - unfold I. cbn. auto.
Qed.

(** X11. The parameters returned are those of the most recent completed step of
    phase 2, or the initial values when no step was completed, and the
    error returned is the error at these parameters. *)
Theorem returns_last_completed (fuel : nat) (b : Bracket) (r : Refine) (res : Result) :
  lma_run inv data f o fuel = Returns (b, r, res) ->
  parameterValues res = last_completed (initialValues o) (history r) /\
  parameterError res = error data (last_completed (initialValues o) (history r)) f.
Proof.
  intros Hrun. apply lma_run_inv in Hrun. destruct Hrun as (_ & Hr & ->).
  pose proof (refine_last_completed inv data f o _ _ _ Hr) as HI.
  destruct HI as [Hl Hp]. unfold result_of. cbn [parameterValues parameterError].
  destruct (Js.isNaN (err r)) eqn:En.
  - now rewrite Hl.
  - rewrite <- (Hp eq_refl). split; [reflexivity | apply (refine_err _ _ _ Hr)].
Qed.

(** X13. A damping that is not negative stays so when [v] is positive: the
    damping with which phase 1 ends, and which every step of phase 2 is
    given, is not negative. *)
Theorem damping_never_negative (fuel : nat) (b : Bracket) (r : Refine) (res : Result) :
  Js.lt (damping o) 0 = false ->
  Js.gt (v o) 0 = true ->
  lma_run inv data f o fuel = Returns (b, r, res) ->
  Js.lt (damp b) 0 = false /\
  Forall (fun c => Js.lt (given_damping c) 0 = false) (history r).
Proof.
  intros Hd Hv Hrun. apply lma_run_inv in Hrun. destruct Hrun as (Hb & Hr & _).
  assert (Hdb : Js.lt (damp b) 0 = false).
  { apply (bracket_invariant (fun s => Js.lt (damp s) 0 = false))
      with (fuel := fuel) (err := error data (initialValues o) f) (s := bracket_start o);
      [ | | exact Hd | exact Hb].
    - intros s stepV Hs _. cbn [damp]. now apply div_not_negative.
    - intros s Hs. cbn [damp]. apply mul_not_negative; [exact Hs |].
      now apply gt_zero_not_lt. }
  split; [exact Hdb |].
  apply (refine_ind inv data f o (damp b)
           (fun s => Forall (fun c => Js.lt (given_damping c) 0 = false) (history s))
           (fun s => Forall (fun c => Js.lt (given_damping c) 0 = false) (history s)))
    with (fuel := fuel) (s := refine_start o (error data (initialValues o) f));
    [ | | | | exact Hr]; cbn; auto.
Qed.

End FitProperties.

Lemma error_never_negative_witness :
  exists b r res,
    lma_run Matrix.inv_small Sample.point_1_2 Sample.ray Sample.damped 10
    = Returns (b, r, res) /\
    Js.lt (parameterError res) 0 = false.
Proof.
  run_sample E. exists b, r, res. split; [reflexivity |].
  exact (proj2 (error_never_negative Matrix.inv_small Sample.point_1_2 Sample.ray
                  Sample.damped) _ _ _ _ E).
Defined.

Lemma short_y_gives_nan_witness :
  length (y Sample2.short_y) < length (x Sample2.short_y) /\
  Js.isNaN (error Sample2.short_y [1%float] Sample.ray) = true /\
  exists b r res,
    lma_run Matrix.inv_small Sample2.short_y Sample.ray Sample.damped 10
    = Returns (b, r, res) /\
    iterations res = 0%float /\
    parameterValues res = initialValues Sample.damped.
Proof.
  assert (H : length (y Sample2.short_y) < length (x Sample2.short_y)) by (simpl; lia).
  destruct (short_y_gives_nan Matrix.inv_small Sample2.short_y Sample.ray Sample.damped H)
    as [Herr Hrun].
  split; [exact H |]. split; [apply Herr |].
  run_sample E. exists b, r, res. split; [reflexivity |].
  destruct (Hrun _ _ _ _ E) as (H1 & H2 & _). auto.
Defined.

Lemma already_within_tolerance_witness :
  Js.le (error Sample.two_points [2%float; 1%float] Sample.line) 0.01 = true /\
  exists b r res,
    lma_run Matrix.inv_small Sample.two_points Sample.line Sample2.at_solution 200
    = Returns (b, r, res) /\
    iterations res = 0%float /\
    parameterValues res = [2%float; 1%float].
Proof.
  assert (H : Js.le (error Sample.two_points (initialValues Sample2.at_solution) Sample.line)
                    (errorTolerance Sample2.at_solution) = true) by reflexivity.
  split; [exact H |]. run_sample E. exists b, r, res. split; [reflexivity |].
  pose proof (already_within_tolerance _ _ _ _ _ _ _ _ H E) as (_ & H1 & H2 & _). auto.
Defined.

Lemma returns_for_a_reason_witness :
  exists b r res,
    lma_run Matrix.inv_small Sample.two_points Sample.line Sample.plain 10
    = Returns (b, r, res) /\
    (Js.isNaN (err r) = true \/
     Js.le (parameterError res) (errorTolerance Sample.plain) = true \/
     Js.lt (iterations res) (maxIterations Sample.plain) = false).
Proof.
  run_sample E. exists b, r, res. split; [reflexivity |].
  exact (returns_for_a_reason _ _ _ _ _ _ _ _ E).
Defined.

Lemma ends_when_phase_1_ends_witness :
  lma_run Matrix.inv_small Sample.point_1_1 Sample.square Sample.overshoot 10 <> Pending.
Proof.
  apply (ends_when_phase_1_ends _ _ _ _ 8 10 1);
    [vm_compute; discriminate | lia | reflexivity | lia].
Defined.

Lemma throws_at_the_start_witness :
  Js.le (error Sample.point_1_1 (initialValues Sample.from_zero) Sample2.fixed)
        (errorTolerance Sample.from_zero) = true /\
  lma_with Matrix.inv_small Sample.point_1_1 Sample2.fixed Sample.from_zero 1 = Throws.
Proof.
  split; [reflexivity |].
  apply throws_at_the_start. left. vm_compute. reflexivity.
Defined.

Lemma phase_1_never_ends_witness :
  (damping Sample2.undamped / v Sample2.undamped)%float = damping Sample2.undamped /\
  (damping Sample2.undamped * v Sample2.undamped)%float = damping Sample2.undamped /\
  lma_with Matrix.inv_small Sample.point_1_1 Sample.square Sample2.undamped 1000 = Pending.
Proof.
  assert (Hdiv : (damping Sample2.undamped / v Sample2.undamped)%float
                 = damping Sample2.undamped) by reflexivity.
  assert (Hmul : (damping Sample2.undamped * v Sample2.undamped)%float
                 = damping Sample2.undamped) by reflexivity.
  split; [exact Hdiv |]. split; [exact Hmul |].
  destruct (step Matrix.inv_small Sample.point_1_1 (initialValues Sample2.undamped)
              (damping Sample2.undamped) (gradientDifference Sample2.undamped) Sample.square)
    as [pD |] eqn:E; [| vm_compute in E; discriminate].
  apply (phase_1_never_ends Matrix.inv_small Sample.point_1_1 Sample.square Sample2.undamped
           pD Hdiv Hmul E).
  pose proof E as E'. vm_compute in E'. injection E' as <-. reflexivity.
Defined.

(** With two and a half iterations allowed, phase 1 makes three passes. *)
Lemma phase_1_on_nan_witness :
  Js.isNaN (error Sample.point_0_1 (initialValues Sample.fractional) Sample.ratio) = true /\
  exists b r res n,
    lma_run Matrix.inv_small Sample.point_0_1 Sample.ratio Sample.fractional 10
    = Returns (b, r, res) /\
    count b = counter n /\
    count b = 3%float /\
    par b = initialValues Sample.fractional /\
    damp b = Nat.iter n (fun d => (d * v Sample.fractional)%float) (damping Sample.fractional).
Proof.
  assert (Hnan : Js.isNaN (error Sample.point_0_1 (initialValues Sample.fractional)
                                 Sample.ratio) = true) by reflexivity.
  split; [exact Hnan |]. run_sample E.
  destruct (phase_1_on_nan _ _ _ _ _ _ _ _ Hnan E) as (n & _ & H1 & _ & _ & H2 & H3).
  exists b, r, res, n. split; [reflexivity |]. split; [exact H1 |].
  split; [subst b; reflexivity | auto].
Defined.

Lemma lengths_are_kept_witness :
  exists b r res,
    lma_run Matrix.inv_small Sample.two_points Sample.line Sample.plain 10
    = Returns (b, r, res) /\
    length (parameterValues res) = 2.
Proof.
  run_sample E. exists b, r, res. split; [reflexivity |].
  pose proof (lengths_are_kept _ _ _ _ _ _ _ _ E) as (_ & _ & H). exact H.
Defined.

Lemma phase_2_iterates_step_witness :
  exists b r res,
    lma_run Matrix.inv_small Sample.point_1_2 Sample.ray Sample.damped 10
    = Returns (b, r, res) /\
    chained (initialValues Sample.damped) (history r) /\
    parameters r = current (initialValues Sample.damped) (history r).
Proof.
  run_sample E. exists b, r, res. split; [reflexivity |].
  pose proof (phase_2_iterates_step _ _ _ _ _ _ _ _ E) as (H1 & H2 & _). auto.
Defined.

Lemma returns_last_completed_witness :
  exists b r res,
    lma_run Matrix.inv_small Sample.point_0_1 Sample.ratio Sample.from_zero 10
    = Returns (b, r, res) /\
    parameterValues res = last_completed (initialValues Sample.from_zero) (history r).
Proof.
  run_sample E. exists b, r, res. split; [reflexivity |].
  exact (proj1 (returns_last_completed _ _ _ _ _ _ _ _ E)).
Defined.

Lemma damping_never_negative_witness :
  Js.lt (damping Sample.damped) 0 = false /\
  Js.gt (v Sample.damped) 0 = true /\
  exists b r res,
    lma_run Matrix.inv_small Sample.point_1_2 Sample.ray Sample.damped 10
    = Returns (b, r, res) /\
    Js.lt (damp b) 0 = false.
Proof.
  assert (Hd : Js.lt (damping Sample.damped) 0 = false) by reflexivity.
  assert (Hv : Js.gt (v Sample.damped) 0 = true) by reflexivity.
  split; [exact Hd |]. split; [exact Hv |].
  run_sample E. exists b, r, res. split; [reflexivity |].
  exact (proj1 (damping_never_negative _ _ _ _ _ _ _ _ Hd Hv E)).
Defined.
(** ** A not-a-number among the residuals *)

Section NaNInStep.

Local Open Scope float_scope.

(** Not-a-number is absorbing for the product and for a sum of many terms. *)
Lemma isNaN_mul_r (a b : float) : Js.isNaN b = true -> Js.isNaN (a * b) = true.
Proof.
  rewrite !isNaN_spec, mul_spec. intros ->. now destruct (Prim2SF a).
Qed.

Lemma isNaN_fold_add (ps : list float) (p : float) :
  Js.isNaN p = true \/ Exists (fun a => Js.isNaN a = true) ps ->
  Js.isNaN (fold_left PrimFloat.add ps p) = true.
Proof.
  revert p. induction ps as [| a ps IH]; intros p [Hp | Hex]; cbn [fold_left].
  - exact Hp.
  - inversion Hex.
  - apply IH. left. now apply isNaN_add_l.
  - apply IH. inversion Hex as [? ? Ha | ? ? Hrest]; subst.
    + left. now apply isNaN_add_r.
    + now right.
Qed.

(** A product of a row with a column that holds a not-a-number is
    not-a-number. *)
Lemma isNaN_dot (u w : list float) (k : nat) :
  k < length u -> k < length w -> Js.isNaN (Js.get w k) = true ->
  Js.isNaN (Matrix.dot u w) = true.
Proof.
  intros Hu Hw Hnan. unfold Matrix.dot.
  assert (Hex : Exists (fun a => Js.isNaN a = true) (zip_with PrimFloat.mul u w)).
  { apply Exists_exists. exists (Js.get u k * Js.get w k). split.
    - apply list_elem_of_lookup. exists k.
      rewrite lookup_zip_with, (get_lookup u k Hu), (get_lookup w k Hw). reflexivity.
    - now apply isNaN_mul_r. }
  destruct (zip_with PrimFloat.mul u w) as [| p ps]; [inversion Hex |].
  apply isNaN_fold_add. inversion Hex; subst; auto.
Qed.

(** The transpose of a matrix of one row has that row as its column. *)
Lemma column_transpose_row (r : list float) :
  r <> [] -> Matrix.column (Matrix.transpose [r]) 0 = r.
Proof.
  intros Hr. unfold Matrix.column, Matrix.transpose, Matrix.ncols. cbn [hd].
  unfold Js.tabulate. rewrite map_map. cbn [map]. 
  change (fun x0 : nat => Js.get [Js.get r x0] 0) with (Js.get r).
  apply tabulate_get.
Qed.

Variable inv : Matrix.matrix -> option Matrix.matrix.

(** The product of a matrix with a column has, in row [q], the product of
    row [q] of the matrix with the column. *)
Lemma multiply_by_column (A D : Matrix.matrix) (r : list float) (q : nat) :
  Matrix.multiply A (Matrix.transpose [r]) = Some D -> q < length A ->
  length (Matrix.row A q) = length r /\ r <> [] /\
  Matrix.entry D q 0 = Matrix.dot (Matrix.row A q) r.
Proof.
  unfold Matrix.multiply. destruct (_ && _) eqn:E; [| discriminate].
  intros [= <-] Hq.
  apply andb_prop in E. destruct E as [E Hne]. apply andb_prop in E. destruct E as [Hrows _].
  rewrite nrows_transpose in Hrows, Hne.
  assert (Hr : r <> []).
  { intros ->. discriminate Hne. }
  assert (Hc : Matrix.ncols [r] = length r) by reflexivity.
  rewrite Hc in Hrows.
  destruct (A !! q) as [u |] eqn:Eu; [| apply lookup_ge_None_1 in Eu; lia].
  assert (Hu : Matrix.row A q = u) by (unfold Matrix.row; now rewrite Eu).
  split; [| split; [exact Hr |]].
  - rewrite Hu. apply (proj1 (rows_have_spec _ A) Hrows).
    apply list_elem_of_In, list_elem_of_lookup. now exists q.
  - unfold Matrix.entry, Matrix.row. rewrite list_lookup_fmap, Eu. cbn [fmap option_fmap option_map default].
    rewrite (ncols_transpose_row r Hr).
    unfold Js.get, Js.tabulate. cbn [seq map lookup list_lookup default].
    rewrite (column_transpose_row r Hr). reflexivity.
Qed.

(** X3. One residual that is not-a-number, from a model value or an element of
    [data.y] that is not-a-number or from a missing element of [data.y],
    spoils the whole step: every parameter that [step] returns is
    not-a-number. *)
Theorem step_spreads_nan (data : Data) (params : list float) (damping gd : float)
    (f : Model) (k : nat) (p : list float) :
  k < length (x data) ->
  Js.isNaN (Js.get (y data) k - f params (Js.get (x data) k)) = true ->
  step inv data params damping gd f = Some p ->
  length p = length params /\ Forall (fun a => Js.isNaN a = true) p.
Proof.
  intros Hk Hnan. unfold step.
  set (ed := Js.tabulate (length (x data)) _).
  set (J := gradientFunction data ed params gd f).
  unfold matrixFunction.
  set (r := Js.tabulate (length (x data)) _).
  destruct (Matrix.multiply J (Matrix.transpose J)) as [gg |] eqn:Egg; [| discriminate].
  cbn [mbind option_bind].
  destruct (Matrix.add _ gg) as [a |]; [| discriminate]. cbn [mbind option_bind].
  destruct (inv a) as [Ainv |]; [| discriminate]. cbn [mbind option_bind].
  destruct (Matrix.multiply Ainv J) as [ig |] eqn:Eig; [| discriminate].
  cbn [mbind option_bind].
  destruct (Matrix.multiply ig (Matrix.transpose [r])) as [d |] eqn:Ed; [| discriminate].
  cbn [mbind option_bind].
  assert (Hr : Js.isNaN (Js.get r k) = true).
  { assert (Hget : forall g : nat -> float, Js.get (Js.tabulate (length (x data)) g) k = g k).
    { intros g. unfold Js.get. now rewrite lookup_tabulate. }
    unfold r, ed. rewrite !Hget. exact Hnan. }
  assert (Hlen_r : length r = length (x data)) by apply length_tabulate.
  rewrite update_closed_form.
  - destruct (Nat.eqb (length d) (length params)) eqn:El; [| discriminate].
    apply Nat.eqb_eq in El. intros [= <-]. split; [apply length_tabulate |].
    apply Forall_lookup. intros q b Hb.
    assert (Hq : q < length params).
    { apply lookup_lt_Some in Hb. now rewrite length_tabulate in Hb. }
    rewrite lookup_tabulate in Hb by exact Hq. injection Hb as <-.
    apply isNaN_sub_r, isNaN_mul_r.
    pose proof (multiply_rows _ _ _ Ed) as (Hd & _ & _).
    destruct (multiply_by_column ig d r q Ed) as (Hu & _ & ->); [lia |].
    apply (isNaN_dot _ _ k); [rewrite Hu; lia | lia | exact Hr].
  - apply multiply_rows in Egg. destruct Egg as (_ & Hn & _).
    rewrite nrows_transpose in Hn. intros Hp. apply Hn.
    unfold J, gradientFunction. rewrite Hp. reflexivity.
  - apply multiply_rows in Ed. destruct Ed as (_ & Hm & Hrows).
    intros row Hin. rewrite (Hrows row Hin). apply ncols_transpose_row.
    intros Hr'. apply Hm. rewrite nrows_transpose, Hr'. reflexivity.
Qed.

End NaNInStep.

Lemma step_spreads_nan_witness :
  1 < length (x Sample2.short_y) /\
  step Matrix.inv_small Sample2.short_y [1%float; 1%float] 0 0.1 Sample.line
  = Some [nan; nan] /\
  Forall (fun a => Js.isNaN a = true) [nan; nan].
Proof.
  assert (Hk : 1 < length (x Sample2.short_y)) by (cbn; lia).
  assert (H : step Matrix.inv_small Sample2.short_y [1%float; 1%float] 0 0.1 Sample.line
              = Some [nan; nan]) by (vm_compute; reflexivity).
  split; [exact Hk |]. split; [exact H |].
  exact (proj2 (step_spreads_nan Matrix.inv_small Sample2.short_y [1%float; 1%float] 0 0.1
                  Sample.line 1 [nan; nan] Hk eq_refl H)).
Defined.
(** ** The array of the result *)

Section HeapResults.

Import Heap.

Variable inv : Matrix.matrix -> option Matrix.matrix.

(** The array that [step] returns is a new array of numbers: it was not
    on the heap before the call. *)
Lemma step_fresh (data : Data) (params : loc) (damping gd : float) (f : Model) (h : heap) :
  wp (step inv data params damping gd f)
     (fun l h' => h ⊆ h' /\ h !! l = None /\
                  exists vals, h' !! l = Some (map Num vals)) h.
Proof.
  unfold step, new_Array.
  apply wp_bind, wp_length_of. intros ps _.
  apply wp_bind, wp_length_of. intros xs _.
  apply wp_bind, wp_alloc. intros ed Hed.
  apply wp_bind.
  apply wp_for_each with (I := fun h' => h ⊆ h').
  - now apply insert_subseteq_r.
  - intros k h1 _ Hsub1.
    apply wp_bind, wp_read. intros ? _. apply wp_bind, wp_call. intros ? _.
    apply wp_store. intros arr _. now apply insert_subseteq_r.
  - intros h1 Hsub1. apply wp_bind.
    eapply wp_mono; [apply (gradientFunction_preserves h), Hsub1 |].
    intros J h2 Hsub2. apply wp_bind.
    eapply wp_mono; [apply (matrixFunction_preserves h), Hsub2 |].
    intros R h3 Hsub3.
    apply wp_bind, wp_lift. intros gg _. apply wp_bind, wp_lift. intros a _.
    apply wp_bind, wp_lift. intros ai _. apply wp_bind, wp_lift. intros ig _.
    apply wp_bind, wp_lift. intros igm _. apply wp_bind, wp_load. intros cur _.
    apply wp_bind, wp_lift. intros row _.
    apply wp_bind, wp_lift. intros p _. apply wp_alloc. intros l Hl.
    assert (Hl0 : h !! l = None) by (eapply lookup_weaken_None; eassumption).
    split; [now apply insert_subseteq_r |].
    split; [exact Hl0 | rewrite lookup_insert_eq; eauto].
Qed.

Variable data : Data.
Variable f : Model.
Variable o : Options.

(** Through phase 2, [lastParams] is the caller's [initialValues] until a
    step is completed and a new array of numbers from then on, and
    [parameters] is the same array as [lastParams] unless the last error is
    not-a-number; [i] counts the completed steps. *)
Lemma refine_result_array (h0 : heap) (fuel : nat) (dmp : float) (s : Refine) (h : heap)
    (k : nat) :
  h0 ⊆ h ->
  i s = counter k ->
  (k = 0 -> lastParams s = initialValues o) ->
  (0 < k -> h0 !! lastParams s = None /\
            exists vals, h !! lastParams s = Some (map Num vals)) ->
  (Js.isNaN (err s) = false -> parameters s = lastParams s) ->
  wp (refine inv data f o fuel dmp s)
     (fun r h' =>
        h0 ⊆ h' /\
        exists n,
          i r = counter n /\
          (n = 0 -> lastParams r = initialValues o) /\
          (0 < n -> h0 !! lastParams r = None /\
                    exists vals, h' !! lastParams r = Some (map Num vals)) /\
          (Js.isNaN (err r) = false -> parameters r = lastParams r)) h.
Proof.
  revert s h k. induction fuel as [| fuel IH]; intros s h k Hsub Hi H0 Hpos Herr;
    [apply wp_pending |].
  cbn [refine].
  destruct (Js.lt (i s) (maxIterations o) && negb (converged s));
    [| apply wp_ret; split; [exact Hsub | exists k; auto]].
  apply wp_bind. eapply wp_mono; [apply step_fresh |].
  intros p' h1 (Hsub1 & Hnew & Hthere).
  apply wp_bind. eapply wp_mono; [apply error_read_only |].
  intros err' h2 ->.
  assert (Hsub01 : h0 ⊆ h1) by (etransitivity; eassumption).
  destruct (Js.isNaN err') eqn:Enan.
  - apply wp_ret. cbn [i lastParams err parameters].
    split; [exact Hsub01 |]. exists k. split; [exact Hi |]. split; [exact H0 |].
    split; [| intros Hfalse; rewrite Enan in Hfalse; discriminate Hfalse].
    intros Hlt. destruct (Hpos Hlt) as [Hnone [vals Ha]]. split; [exact Hnone |].
    exists vals. exact (lookup_weaken _ _ _ _ Ha Hsub1).
  - apply (IH _ _ (S k)); cbn [i lastParams err parameters]; auto.
    + now rewrite Hi.
    + discriminate.
    + intros _. split; [| exact Hthere].
      eapply lookup_weaken_None; eassumption.
Qed.

End HeapResults.

(** X14. When [initialValues] is an array of numbers, the array
    [parameterValues] of the result is an array of numbers too: it is the
    caller's array [initialValues] itself when no step of phase 2 was
    completed, and otherwise an array made during the call, one that was
    not on the heap before the call.  [iterations] is the number of
    completed steps. *)
Theorem result_array (inv : Matrix.matrix -> option Matrix.matrix) (data : Heap.Data)
    (f : Model) (o : Heap.Options) (fuel : nat) (h : Heap.heap) (init : list float)
    (res : Heap.Result) (h' : Heap.heap) :
  h !! Heap.initialValues o = Some (map Heap.Num init) ->
  Heap.lma inv data f o fuel h = Returns (res, h') ->
  exists n vals,
    Heap.iterations res = counter n /\
    h' !! Heap.parameterValues res = Some (map Heap.Num vals) /\
    (n = 0 -> Heap.parameterValues res = Heap.initialValues o /\ vals = init) /\
    (0 < n -> h !! Heap.parameterValues res = None).
Proof.
  intros Hinit Hrun.
  assert (Hwp : Heap.wp (Heap.lma inv data f o fuel)
                  (fun res h' =>
                     exists n vals,
                       Heap.iterations res = counter n /\
                       h' !! Heap.parameterValues res = Some (map Heap.Num vals) /\
                       (n = 0 -> Heap.parameterValues res = Heap.initialValues o /\
                                 vals = init) /\
                       (0 < n -> h !! Heap.parameterValues res = None)) h).
  { unfold Heap.lma. apply wp_bind. eapply wp_mono; [apply error_read_only |].
    intros err0 h1 ->. apply wp_bind.
    eapply wp_mono; [apply (bracket_preserves inv data f o h); reflexivity |].
    intros b h2 Hsub2. apply wp_bind.
    eapply wp_mono;
      [apply (refine_result_array inv data f o h _ _ _ _ 0 Hsub2); cbn; auto; lia |].
    intros r h3 (Hsub3 & n & Hi & H0 & Hpos & Herr).
    assert (Hcases : exists vals,
               h3 !! Heap.lastParams r = Some (map Heap.Num vals) /\
               (n = 0 -> Heap.lastParams r = Heap.initialValues o /\ vals = init) /\
               (0 < n -> h !! Heap.lastParams r = None)).
    { destruct n as [| n].
      - exists init. rewrite (H0 eq_refl).
        split; [exact (lookup_weaken _ _ _ _ Hinit Hsub3) |]. split; [auto | lia].
      - destruct (Hpos ltac:(lia)) as [Hnone [vals Hvals]]. exists vals.
        split; [exact Hvals |]. split; [discriminate | auto]. }
    destruct Hcases as (vals & Hv & Hc0 & Hc1).
    destruct (Js.isNaN (Heap.err r)) eqn:Enan.
    - apply wp_bind. eapply wp_mono; [apply error_read_only |].
      intros e h4 ->. apply wp_ret.
      cbn [Heap.iterations Heap.parameterValues]. exists n, vals. auto.
    - apply wp_ret. cbn [Heap.iterations Heap.parameterValues].
      rewrite (Herr eq_refl). exists n, vals. auto. }
  exact (wp_returns _ _ _ _ _ Hwp Hrun).
Qed.

(** With a hundred iterations allowed the fit of the line completes a step
    and returns a new array; with none allowed it returns the array of the
    initial values, at 2. *)
Lemma result_array_witness :
  exists res h',
    Heap.lma Matrix.inv_small Sample.two_points_at Sample.line Sample.plain_at 20 Sample.arrays
    = Returns (res, h') /\
    Heap.iterations res = counter 1 /\
    Sample.arrays !! Heap.parameterValues res = None /\
    h' !! Heap.parameterValues res = Some [Heap.Num 1.9999999999999991; Heap.Num 1] /\
    exists res0 h0',
      Heap.lma Matrix.inv_small Sample.two_points_at Sample.line Sample2.no_iteration_at 20
               Sample.arrays = Returns (res0, h0') /\
      Heap.iterations res0 = counter 0 /\ Heap.parameterValues res0 = 2.
Proof.
  assert (Hinit : Sample.arrays !! Heap.initialValues Sample.plain_at
                  = Some (map Heap.Num [1%float; 1%float])) by reflexivity.
  assert (Hinit0 : Sample.arrays !! Heap.initialValues Sample2.no_iteration_at
                   = Some (map Heap.Num [1%float; 1%float])) by reflexivity.
  destruct (Heap.lma Matrix.inv_small Sample.two_points_at Sample.line Sample.plain_at 20
              Sample.arrays) as [[res h'] | |] eqn:E;
    [| exfalso; vm_compute in E; discriminate ..].
  destruct (Heap.lma Matrix.inv_small Sample.two_points_at Sample.line Sample2.no_iteration_at
              20 Sample.arrays) as [[res0 h0'] | |] eqn:E0;
    [| exfalso; vm_compute in E0; discriminate ..].
  exists res, h'. split; [reflexivity |].
  pose proof (result_array _ _ _ _ _ _ _ _ _ Hinit E) as (n & vals & Hn & _ & _ & Hfresh).
  pose proof (result_array _ _ _ _ _ _ _ _ _ Hinit0 E0) as (n0 & vals0 & Hn0 & _ & Hsame & _).
  pose proof E as E'. vm_compute in E'. injection E' as <- <-.
  pose proof E0 as E0'. vm_compute in E0'. injection E0' as <- <-.
  assert (Hpos : 0 < n).
  { destruct n as [| n]; [| lia]. exfalso.
    apply (f_equal (fun a => (a =? 0)%float)) in Hn. vm_compute in Hn. discriminate. }
  split; [reflexivity |]. split; [exact (Hfresh Hpos) |]. split; [vm_compute; reflexivity |].
  eexists _, _. split; [reflexivity |]. split; [reflexivity |]. reflexivity.
Defined.

(** ** Shared arrays *)

